(** * Table comparison tool: query composer and comparator

    A shallow embedding of [3_bigquery_utils/compare_table_contents.py]
    (classes [QueryBuilder] and [TableComparator], functions
    [execute_comparison] and [main]) together with the properties the
    specification states about them.

    Modelling choices.
    - A Python [str] is a [string]; each [ascii] stands for the code point
      of the same number, so the model covers text whose code points are
      below 256.  [isspace] and [lower_char] follow Python's [str.isspace]
      and [str.lower] on that range.
    - [Optional[T]] is [option T].  Python tests such values by truthiness
      ([if x:]); the tests are written out ([truthy_str], [truthy_int],
      [truthy_set]).
    - A Python [set] of names is a [gset string], a [dict] a [gmap].
      Python leaves the order in which a set is iterated unspecified: where
      the code builds a list from such an iteration (the type mismatches),
      the list of the model stands for one of these orders, and what is
      stated about it does not depend on the order.
    - The BigQuery client is an oracle: the number of queries issued so
      far and the query text give the response.  Building the client is an
      oracle as well, which gives a client or the exception raised.
    - The file the export writes is behind a third oracle, which performs
      or fails each of [open], the write of the header, the write of a row
      and [close].
    - A run records every query with its response, every message printed
      and every operation on the file with its result, in order, and ends in
      a value, an exception or an exit status. *)

From Stdlib Require Import ZArith Ascii DecimalString.
From Stdlib Require String.
From stdpp Require Import gmap strings list sorting.

(** ** Python string primitives *)

Module Py.

Definition code (c : ascii) : N := N_of_ascii c.

(** [str.isspace] for one code point below 256: TAB, LF, VT, FF, CR, the
    four separators FS, GS, RS, US, the space, NEL and the no-break space. *)
Definition isspace (c : ascii) : bool :=
  let n := code c in
  ((9 <=? n) && (n <=? 13) || (28 <=? n) && (n <=? 32)
   || (n =? 133) || (n =? 160))%N.

(** [str.lower] for one code point below 256: the letters A-Z and the
    Latin-1 capitals (192-222 but for the multiplication sign 215). *)
Definition lower_char (c : ascii) : ascii :=
  let n := code c in
  if ((65 <=? n) && (n <=? 90)
      || (192 <=? n) && (n <=? 222) && negb (n =? 215))%N
  then ascii_of_N (n + 32) else c.

Fixpoint lower (s : string) : string :=
  match s with
  | EmptyString => EmptyString
  | String c s' => String (lower_char c) (lower s')
  end.

Fixpoint lstrip (s : string) : string :=
  match s with
  | EmptyString => EmptyString
  | String c s' => if isspace c then lstrip s' else s
  end.

Fixpoint rstrip (s : string) : string :=
  match s with
  | EmptyString => EmptyString
  | String c s' =>
      match rstrip s' with
      | EmptyString => if isspace c then EmptyString else String c EmptyString
      | r => String c r
      end
  end.

(** [s.strip()] *)
Definition strip (s : string) : string := rstrip (lstrip s).

(** [s.startswith(p)] *)
Definition startswith (s p : string) : bool := String.prefix p s.

(** [sep.join(l)] *)
Definition join (sep : string) (l : list string) : string := String.concat sep l.

(** [s.split(sep)] for a one-character separator: the pieces between the
    separators, [[""]] for the empty string. *)
Fixpoint split (sep : ascii) (s : string) : list string :=
  match s with
  | EmptyString => [EmptyString]
  | String c s' =>
      if Ascii.eqb c sep then EmptyString :: split sep s'
      else match split sep s' with
           | p :: ps => String c p :: ps
           | [] => [String c EmptyString]
           end
  end.

(** [str(n)] for an [int] *)
Definition str_of_int (n : Z) : string := NilZero.string_of_int (Z.to_int n).

(** Truthiness of an optional string, an optional integer, a set. *)
Definition truthy_str (o : option string) : bool :=
  match o with
  | Some s => negb (String.eqb s "")
  | None => false
  end.

Definition truthy_int (o : option Z) : bool :=
  match o with
  | Some n => negb (n =? 0)%Z
  | None => false
  end.

Definition truthy_set (o : option (gset string)) : bool :=
  match o with
  | Some X => negb (bool_decide (X = ∅))
  | None => false
  end.

(** The text an f-string interpolates for a value already tested truthy. *)
Definition text_of (o : option string) : string := default "" o.

(** [sorted(l)] on strings: ascending by code points. *)
Definition sorted (l : list string) : list string := merge_sort String.le l.

Definition nl : string := String (ascii_of_nat 10) EmptyString.

End Py.

Import Py.

(** ** QueryBuilder *)

Definition normalize_where_clause (where_clause : option string) : option string :=
  if truthy_str where_clause then
    let where_clause := strip (text_of where_clause) in
    if negb (startswith (lower where_clause) "where")
    then Some ("where " +:+ where_clause)
    else Some where_clause
  else None.

Definition normalize_order_by_clause (order_by_clause : option string) : option string :=
  if truthy_str order_by_clause then
    let order_by_clause := strip (text_of order_by_clause) in
    if negb (startswith (lower order_by_clause) "order by")
    then Some ("order by " +:+ order_by_clause)
    else Some order_by_clause
  else None.

Definition build_column_list (columns : option string)
    (common_columns : option (gset string)) : string :=
  if truthy_str columns then text_of columns
  else if truthy_set common_columns
       then join ", " (sorted (elements (default ∅ common_columns)))
       else "*".

Definition build_row_count_query (table : string) (where_clause : option string) : string :=
  let query := "SELECT COUNT(" +:+ "*) as count FROM " +:+ table in
  if truthy_str where_clause then query +:+ " " +:+ text_of where_clause else query.


(** The set-difference query before any wrapping (the locals [where_part]
    and [except_query] of [build_except_distinct_query]). *)
Definition where_part (where_clause : option string) : string :=
  if truthy_str where_clause then " " +:+ text_of where_clause else "".

Definition except_query (table1 table2 columns : string)
    (where_clause : option string) : string :=
  let where_part := where_part where_clause in
  nl +:+ "SELECT " +:+ columns +:+ " FROM " +:+ table1 +:+ where_part +:+ nl +:+
  "EXCEPT DISTINCT" +:+ nl +:+
  "SELECT " +:+ columns +:+ " FROM " +:+ table2 +:+ where_part.

Definition build_except_distinct_query (table1 table2 columns : string)
    (where_clause order_by_clause : option string) (limit : option Z)
    (add_source_column : option string) : string :=
  let except_query := except_query table1 table2 columns where_clause in
  let query :=
    if truthy_str add_source_column || truthy_str order_by_clause then
      let outer_select :=
        if truthy_str add_source_column
        then "SELECT *, '" +:+ text_of add_source_column +:+ "' as source_table"
        else "SELECT *" in
      let query := outer_select +:+ " FROM (" +:+ except_query +:+ ")" in
      if truthy_str order_by_clause then query +:+ " " +:+ text_of order_by_clause
      else query
    else except_query in
  let query :=
    if truthy_int limit then query +:+ " LIMIT " +:+ str_of_int (default 0%Z limit)
    else query in
  strip query.

Definition build_union_query (queries : list string)
    (order_by_clause : option string) : string :=
  let union_query := join " UNION ALL " (map (λ q, "(" +:+ q +:+ ")") queries) in
  if truthy_str order_by_clause
  then "SELECT * FROM (" +:+ union_query +:+ ") " +:+ text_of order_by_clause
  else union_query.

(** ** The query-execution collaborator and the run monad *)

(** A result row as [dict(row)] gives it: column name and value, in order. *)
Definition row : Type := list (string * string).

(** What a caller reads from a result set: the (column_name, data_type)
    rows of the catalog, the [count] of the single row of a count query, the
    [has_differences] flag of the existence query, or data rows. *)
Inductive result_set : Type :=
| SchemaRows (cols : list (string * string))
| CountRow (count : Z)
| FlagRow (has_differences : bool)
| DataRows (rows : list row).

Inductive response : Type :=
| Answer (r : result_set)
| Failure (msg : string).

Definition client : Type := nat → string → response.

(** The method of [TableComparator] that issues a query. *)
Inductive op : Type := OpSchema | OpRowCount | OpCheck | OpSample | OpExport.

(** The other collaborator is the file system under [open] and the [csv]
    module.  The export asks it to open a file for writing (which creates or
    truncates it), to write the header line, to write the row of a given
    index, and to close the file.  It either does what is asked or raises an
    [OSError], whose text it chooses.  The text of the [ValueError] that
    [csv.DictWriter] raises for a row with keys outside the header is the
    library's, too. *)
Inductive sink_op : Type :=
| SOpen (file : string)
| SHeader (file : string) (fieldnames : list string)
| SRow (file : string) (index : nat) (r : row)
| SClose (file : string).

Record sink : Type := Sink {
  sink_io : sink_op → option string;
  value_error : list string → string
}.

Definition sink_file (o : sink_op) : string :=
  match o with
  | SOpen file | SHeader file _ | SRow file _ _ | SClose file => file
  end.

(** The lines [execute_comparison] and [main] print, one constructor for
    each [print] (a loop of prints is one message carrying the list). *)
Inductive message : Type :=
| MComparing (table1 table2 : string)
| MFilter (where_clause : string)
| MOrder (order_by_clause : string)
| MColumns (specific_columns : string)
| MInputError (msg : string)
| MAnalyzing
| MTableColumns (i : nat) (table : string) (n : nat)
| MOnlyIn (i : nat) (cols : list string)
| MMissingSpecified (cols : list string)
| MNoCommonColumns
| MCommonColumns (n : nat) (cols : string)
| MSchemaMismatches (l : list (string * string * string))
| MComparingRowCounts
| MTableRows (i : nat) (table : string) (count : Z)
| MRowDifference (d : Z)
| MChecking
| MPass
| MFail
| MDetailHeader
| MSample (i : nat) (table1 table2 : string) (rows : list row)
| MExporting
| MExported (file : string) (n : nat)
| MComparisonError (msg : string).

Inductive event : Type :=
| Query (o : op) (q : string) (r : response)
| Print (m : message)
| Write (o : sink_op) (failure : option string).

Inductive outcome (A : Type) : Type :=
| Val (a : A)
| Raised (msg : string)
| Exited (status : Z).
Arguments Val {A} a.
Arguments Raised {A} msg.
Arguments Exited {A} status.

Record run (A : Type) : Type := Run {
  out : outcome A;
  log : list event;
  issued : nat
}.
Arguments Run {A} out log issued.
Arguments out {A} r.
Arguments log {A} r.
Arguments issued {A} r.

(** A computation, run from the number of queries issued before it. *)
Definition M (A : Type) : Type := nat → run A.

#[global] Instance M_ret : MRet M := λ A a n, Run (Val a) [] n.

#[global] Instance M_bind : MBind M := λ A B f m n,
  let r := m n in
  match out r with
  | Val a => let r' := f a (issued r) in Run (out r') (log r ++ log r') (issued r')
  | Raised e => Run (Raised e) (log r) (issued r)
  | Exited s => Run (Exited s) (log r) (issued r)
  end.

Definition print (m : message) : M unit := λ n, Run (Val ()) [Print m] n.

(** [raise Exception(msg)] and [sys.exit(status)] *)
Definition raise {A} (msg : string) : M A := λ n, Run (Raised msg) [] n.
Definition sys_exit {A} (status : Z) : M A := λ n, Run (Exited status) [] n.

(** One operation on the sink: done, or the [OSError] raised. *)
Definition sink_do (fs : sink) (o : sink_op) : M unit := λ n,
  match sink_io fs o with
  | None => Run (Val ()) [Write o None] n
  | Some msg => Run (Raised msg) [Write o (Some msg)] n
  end.

(** [with open(file, "w", newline="") as csvfile: body].  When [open]
    raises, the body does not run and nothing is closed.  Otherwise the file
    is closed however the body ends, and an error of [close] takes the place
    of the way the body ended. *)
Definition with_open {A} (fs : sink) (file : string) (body : M A) : M A := λ n,
  match sink_io fs (SOpen file) with
  | Some msg => Run (Raised msg) [Write (SOpen file) (Some msg)] n
  | None =>
      let r := body n in
      match sink_io fs (SClose file) with
      | None =>
          Run (out r) (Write (SOpen file) None :: log r ++ [Write (SClose file) None])
            (issued r)
      | Some msg =>
          Run (Raised msg)
            (Write (SOpen file) None :: log r ++ [Write (SClose file) (Some msg)])
            (issued r)
      end
  end.

(** The keys of a row that are not among the field names: [DictWriter]
    (whose [extrasaction] is ["raise"] unless told otherwise) refuses a row
    that has any.  A row that lacks a field is written, with an empty
    value. *)
Definition unknown_keys (fieldnames : list string) (r : row) : list string :=
  filter (λ k, k ∉ fieldnames) r.*1.

(** [for row in rows: writer.writerow(row)], from the row of index
    [index] on. *)
Fixpoint write_rows (fs : sink) (file : string) (fieldnames : list string)
    (index : nat) (rows : list row) : M unit :=
  match rows with
  | [] => mret ()
  | r :: rows' =>
      match unknown_keys fieldnames r with
      | [] =>
          sink_do fs (SRow file index r);;
          write_rows fs file fieldnames (S index) rows'
      | wrong => raise (value_error fs wrong)
      end
  end.

(** The [with] block of [export_all_differences]: the header, then the
    rows one by one. *)
Definition write_csv (fs : sink) (file : string) (fieldnames : list string)
    (rows : list row) : M unit :=
  with_open fs file
    (sink_do fs (SHeader file fieldnames);;
     write_rows fs file fieldnames 0 rows).

(** [try: body except Exception as e: handler(str(e))]; [SystemExit] is not
    an [Exception] and passes through. *)
Definition try_except {A} (body : M A) (handler : string → M A) : M A := λ n,
  let r := body n in
  match out r with
  | Raised e => let r' := handler e (issued r) in Run (out r') (log r ++ log r') (issued r')
  | _ => r
  end.

Definition when (b : bool) (m : M unit) : M unit := if b then m else mret ().

(** [self.client.query(q).result()] *)
Definition query (cl : client) (o : op) (q : string) : M result_set := λ n,
  match cl n q with
  | Answer r => Run (Val r) [Query o q (Answer r)] (S n)
  | Failure msg => Run (Raised msg) [Query o q (Failure msg)] (S n)
  end.

(** ** TableComparator *)

Definition schema_query (project dataset table_name : string) : string :=
  nl +:+ "        SELECT column_name, data_type " +:+ nl +:+
  "        FROM `" +:+ project +:+ "." +:+ dataset +:+ ".INFORMATION_SCHEMA.COLUMNS` " +:+ nl +:+
  "        WHERE table_name = '" +:+ table_name +:+ "' " +:+ nl +:+
  "        ORDER BY ordinal_position" +:+ nl +:+
  "        ".

(** A response of another shape than the one read raises, as the attribute
    access or [next] on it would. *)
Definition get_table_schema (cl : client) (project dataset table_name : string)
    : M (list (string * string)) :=
  r ← query cl OpSchema (schema_query project dataset table_name);
  match r with
  | SchemaRows cols => mret cols
  | _ => raise "AttributeError"
  end.

Definition get_row_count (cl : client) (table : string) (where_clause : option string) : M Z :=
  r ← query cl OpRowCount (build_row_count_query table where_clause);
  match r with
  | CountRow count => mret count
  | _ => raise "AttributeError"
  end.

(** [dict(l)]: a later pair overrides an earlier one with the same key. *)
Definition dict (l : list (string * string)) : gmap string string :=
  foldl (λ d p, <[p.1 := p.2]> d) ∅ l.

Record schema_analysis : Type := SchemaAnalysis {
  common_columns : gset string;
  only_in_table1 : gset string;
  only_in_table2 : gset string;
  schema_mismatches : list (string * string * string);
  missing_specified_cols : gset string;
  schemas_identical : bool
}.

(** The mismatches are collected in a loop over the set of common columns:
    their order in the list is the one of that iteration. *)
Definition analyze_schemas (schema1 schema2 : list (string * string))
    (specific_columns : option string) : schema_analysis :=
  let schema1_columns : gset string := list_to_set schema1.*1 in
  let schema2_columns : gset string := list_to_set schema2.*1 in
  let '(common_columns, missing_cols) :=
    if truthy_str specific_columns then
      let specified_cols := map strip (split "," (text_of specific_columns)) in
      let common_columns : gset string :=
        (list_to_set specified_cols ∩ schema1_columns) ∩ schema2_columns in
      (common_columns, list_to_set specified_cols ∖ common_columns)
    else (schema1_columns ∩ schema2_columns, ∅) in
  let only_in_table1 := schema1_columns ∖ schema2_columns in
  let only_in_table2 := schema2_columns ∖ schema1_columns in
  let schema1_dict := dict schema1 in
  let schema2_dict := dict schema2 in
  let schema_mismatches :=
    flat_map (λ col,
      match schema1_dict !! col, schema2_dict !! col with
      | Some type1, Some type2 =>
          if bool_decide (type1 ≠ type2) then [(col, type1, type2)] else []
      | _, _ => []
      end) (elements common_columns) in
  {| common_columns := common_columns;
     only_in_table1 := only_in_table1;
     only_in_table2 := only_in_table2;
     schema_mismatches := schema_mismatches;
     missing_specified_cols := missing_cols;
     schemas_identical :=
       bool_decide (length schema1 = length schema2)
       && bool_decide (schema_mismatches = [])
       && negb (truthy_str specific_columns) |}.

Definition check_query (table1 table2 columns : string) (where_clause : option string) : string :=
  let where_part := if truthy_str where_clause then " " +:+ text_of where_clause else "" in
  nl +:+ "        SELECT " +:+ nl +:+
  "          CASE " +:+ nl +:+
  "            WHEN EXISTS (" +:+ nl +:+
  "              SELECT " +:+ columns +:+ " FROM " +:+ table1 +:+ where_part +:+ nl +:+
  "              EXCEPT DISTINCT" +:+ nl +:+
  "              SELECT " +:+ columns +:+ " FROM " +:+ table2 +:+ where_part +:+ nl +:+
  "            ) OR EXISTS (" +:+ nl +:+
  "              SELECT " +:+ columns +:+ " FROM " +:+ table2 +:+ where_part +:+ nl +:+
  "              EXCEPT DISTINCT" +:+ nl +:+
  "              SELECT " +:+ columns +:+ " FROM " +:+ table1 +:+ where_part +:+ nl +:+
  "            ) THEN TRUE" +:+ nl +:+
  "            ELSE FALSE" +:+ nl +:+
  "          END as has_differences" +:+ nl +:+
  "        ".

Definition check_data_differences (cl : client) (table1 table2 columns : string)
    (where_clause : option string) : M bool :=
  r ← query cl OpCheck (check_query table1 table2 columns where_clause);
  match r with
  | FlagRow has_differences => mret has_differences
  | _ => raise "AttributeError"
  end.

Definition data_rows (r : result_set) : M (list row) :=
  match r with
  | DataRows rows => mret rows
  | _ => raise "TypeError"
  end.

Definition get_sample_differences (cl : client) (table1 table2 columns : string)
    (where_clause order_by_clause : option string) (limit : Z)
    : M (list row * list row) :=
  let query1 := build_except_distinct_query
                  table1 table2 columns where_clause order_by_clause (Some limit) None in
  let query2 := build_except_distinct_query
                  table2 table1 columns where_clause order_by_clause (Some limit) None in
  result1 ← query cl OpSample query1;
  result2 ← query cl OpSample query2;
  rows1 ← data_rows result1;
  rows2 ← data_rows result2;
  mret (rows1, rows2).

Definition export_all_differences (cl : client) (fs : sink)
    (table1 table2 table1_name table2_name columns output_file : string)
    (where_clause order_by_clause : option string) : M nat :=
  let query1 := build_except_distinct_query table1 table2 columns where_clause
                  None None (Some ("exclusive_to_" +:+ table1_name)) in
  let query2 := build_except_distinct_query table2 table1 columns where_clause
                  None None (Some ("exclusive_to_" +:+ table2_name)) in
  let combined_query := build_union_query [query1; query2] order_by_clause in
  result ← query cl OpExport combined_query;
  rows ← data_rows result;
  match rows with
  | first :: _ => write_csv fs output_file first.*1 rows
  | [] => mret ()
  end;;
  mret (length rows).

(** ** execute_comparison and main *)

Definition nonempty (X : gset string) : bool := negb (bool_decide (X = ∅)).

Definition execute_comparison (cl : client) (fs : sink)
    (table1_full table2_full : string)
    (table1_project table1_dataset table1_name : string)
    (table2_project table2_dataset table2_name : string)
    (where_clause order_by_clause specific_columns : option string) : M unit :=
  let where_clause := normalize_where_clause where_clause in
  let order_by_clause := normalize_order_by_clause order_by_clause in
  try_except
    (print MAnalyzing;;
     schema1 ← get_table_schema cl table1_project table1_dataset table1_name;
     schema2 ← get_table_schema cl table2_project table2_dataset table2_name;
     print (MTableColumns 1 table1_full (length schema1));;
     print (MTableColumns 2 table2_full (length schema2));;
     let schema_analysis := analyze_schemas schema1 schema2 specific_columns in
     when (nonempty (only_in_table1 schema_analysis))
       (print (MOnlyIn 1 (sorted (elements (only_in_table1 schema_analysis)))));;
     when (nonempty (only_in_table2 schema_analysis))
       (print (MOnlyIn 2 (sorted (elements (only_in_table2 schema_analysis)))));;
     when (nonempty (missing_specified_cols schema_analysis))
       (print (MMissingSpecified
                 (sorted (elements (missing_specified_cols schema_analysis)))));;
     if negb (nonempty (common_columns schema_analysis)) then
       print MNoCommonColumns
     else
       print (MCommonColumns (size (common_columns schema_analysis))
                (join ", " (sorted (elements (common_columns schema_analysis)))));;
       when (negb (bool_decide (schema_mismatches schema_analysis = [])))
         (print (MSchemaMismatches (schema_mismatches schema_analysis)));;
       print MComparingRowCounts;;
       count1 ← get_row_count cl table1_full where_clause;
       count2 ← get_row_count cl table2_full where_clause;
       print (MTableRows 1 table1_full count1);;
       print (MTableRows 2 table2_full count2);;
       print (MRowDifference (Z.abs (count1 - count2)));;
       let columns := build_column_list specific_columns
                        (Some (common_columns schema_analysis)) in
       print MChecking;;
       has_differences ← check_data_differences cl table1_full table2_full
                           columns where_clause;
       if negb has_differences then
         print MPass
       else
         print MFail;;
         print MDetailHeader;;
         '(rows_only_in_1, rows_only_in_2) ←
           get_sample_differences cl table1_full table2_full columns
             where_clause order_by_clause 10;
         print (MSample 1 table1_full table2_full rows_only_in_1);;
         print (MSample 2 table2_full table1_full rows_only_in_2);;
         print MExporting;;
         let output_file := "table_row_differences.csv" in
         total_diffs ← export_all_differences cl fs table1_full table2_full
                         table1_name table2_name columns output_file
                         where_clause order_by_clause;
         print (MExported output_file total_diffs))
    (λ e, print (MComparisonError e);; sys_exit 1).

(** The parsed command line ([argparse] gives both table names a default). *)
Record args : Type := Args {
  arg_table1 : string;
  arg_table2 : string;
  arg_where_clause : option string;
  arg_order_by_clause : option string;
  arg_specific_columns : option string
}.

(** [inl msg] stands for [raise ValueError(msg)]. *)
Definition parse_table_path (table_path : string) : string + (string * string * string) :=
  match split "." table_path with
  | [project; dataset; table] => inr (project, dataset, table)
  | _ => inl ("Table path must be in format 'project.dataset.table', got: "
              +:+ table_path)
  end.

(** [bigquery.Client(project=...)]: the client for a project, or the
    exception its construction raises ([inl], with its text), for instance
    when no credentials are found. *)
Definition connector : Type := string → string + client.

(** [main] from the parsed command line on.  ([argparse] ends the process
    itself, with status 2, on a command line it cannot parse, before any of
    this runs.)  The client is built outside any [try]: an exception of its
    construction leaves [main]. *)
Definition main (connect : connector) (fs : sink) (a : args) : M unit :=
  match parse_table_path (arg_table1 a) with
  | inl e => print (MInputError e);; sys_exit 1
  | inr (table1_project, table1_dataset, table1_name) =>
      match parse_table_path (arg_table2 a) with
      | inl e => print (MInputError e);; sys_exit 1
      | inr (table2_project, table2_dataset, table2_name) =>
          print (MComparing (arg_table1 a) (arg_table2 a));;
          when (truthy_str (arg_where_clause a))
            (print (MFilter (text_of (arg_where_clause a))));;
          when (truthy_str (arg_order_by_clause a))
            (print (MOrder (text_of (arg_order_by_clause a))));;
          when (truthy_str (arg_specific_columns a))
            (print (MColumns (text_of (arg_specific_columns a))));;
          match connect table1_project with
          | inl e => raise e
          | inr cl =>
              execute_comparison cl fs (arg_table1 a) (arg_table2 a)
                table1_project table1_dataset table1_name
                table2_project table2_dataset table2_name
                (arg_where_clause a) (arg_order_by_clause a)
                (arg_specific_columns a)
          end
      end
  end.

(** The status the process ends with: 0 on a normal return, 1 on an
    uncaught exception, the argument of [sys.exit] otherwise. *)
Definition exit_status {A} (r : run A) : Z :=
  match out r with
  | Val _ => 0
  | Raised _ => 1
  | Exited status => status
  end.

(** ** Readings of a trace *)

Definition queries (l : list event) : list (op * string) :=
  flat_map (λ e, match e with Query o q _ => [(o, q)] | _ => [] end) l.

Definition is_data_op (o : op) : bool :=
  match o with OpSchema => false | _ => true end.

Definition verdicts (l : list event) : list message :=
  flat_map (λ e, match e with
                 | Print MPass => [MPass]
                 | Print MFail => [MFail]
                 | _ => []
                 end) l.

(** ** Vocabulary of the statements *)

(** The pieces [build_except_distinct_query] puts around the set-difference
    query: the outer projection, the ordering and the row cap. *)
Definition outer_select (add_source_column : option string) : string :=
  if truthy_str add_source_column
  then "SELECT *, '" +:+ text_of add_source_column +:+ "' as source_table"
  else "SELECT *".

Definition order_part (order_by_clause : option string) : string :=
  if truthy_str order_by_clause then " " +:+ text_of order_by_clause else "".

Definition limit_part (limit : option Z) : string :=
  if truthy_int limit then " LIMIT " +:+ str_of_int (default 0%Z limit) else "".

(** Whether the outer projection is asked for. *)
Definition wraps (add_source_column order_by_clause : option string) : bool :=
  truthy_str add_source_column || truthy_str order_by_clause.

(** Number of occurrences of a character in a text, and whether a text has
    no whitespace. *)
Fixpoint count_char (c : ascii) (s : string) : nat :=
  match s with
  | EmptyString => 0
  | String d s' => (if Ascii.eqb d c then 1 else 0) + count_char c s'
  end.

Fixpoint nospace (s : string) : bool :=
  match s with
  | EmptyString => true
  | String c s' => negb (isspace c) && nospace s'
  end.

(** Number of places of a text at which a pattern starts. *)
Fixpoint occurrences (p s : string) : nat :=
  match s with
  | EmptyString => if String.prefix p "" then 1 else 0
  | String _ s' => (if String.prefix p s then 1 else 0) + occurrences p s'
  end.

(** The reading of a well-formed relation path in the specification: three
    segments between dots, none of them empty. *)
Definition three_nonempty_segments (table_path : string) : Prop :=
  ∃ project dataset table,
    split "." table_path = [project; dataset; table]
    ∧ project ≠ "" ∧ dataset ≠ "" ∧ table ≠ "".

(** The queries [execute_comparison] issues after the existence query has
    reported a difference: a sample of the rows of [table1] that [table2]
    lacks, capped at 10, and the export of both directions, each labeled. *)
Definition sample_query (table1 table2 columns : string)
    (where_clause order_by_clause : option string) : op * string :=
  (OpSample,
   build_except_distinct_query table1 table2 columns where_clause order_by_clause
     (Some 10%Z) None).

Definition export_query (table1 table2 table1_name table2_name columns : string)
    (where_clause order_by_clause : option string) : op * string :=
  (OpExport,
   build_union_query
     [build_except_distinct_query table1 table2 columns where_clause None None
        (Some ("exclusive_to_" +:+ table1_name));
      build_except_distinct_query table2 table1 columns where_clause None None
        (Some ("exclusive_to_" +:+ table2_name))]
     order_by_clause).

(** Two collaborators for the examples: one whose relations share the
    columns [a] and [b] and that answers every query of a full run, the
    existence query with [b]; one whose relations share no column. *)
Definition demo_client (b : bool) : client := λ n _,
  match n with
  | 0 => Answer (SchemaRows [("a", "INT"); ("b", "STRING")])
  | 1 => Answer (SchemaRows [("a", "INT"); ("b", "INT"); ("c", "BOOL")])
  | 2 => Answer (CountRow 5)
  | 3 => Answer (CountRow 5)
  | 4 => Answer (FlagRow b)
  | 5 => Answer (DataRows [[("a", "1"); ("b", "x")]])
  | 6 => Answer (DataRows [])
  | _ => Answer (DataRows [[("a", "1"); ("b", "x");
                            ("source_table", "exclusive_to_t1")]])
  end.

Definition disjoint_client : client := λ n _,
  match n with
  | 0 => Answer (SchemaRows [("a", "INT")])
  | 1 => Answer (SchemaRows [("b", "INT")])
  | _ => Failure "no further query is expected"
  end.

(** Further readings of a trace: the responses to the queries, the messages
    of the errors reported, the operations on the sink with the error of
    each, if any; and the order in which a full run issues its queries. *)
Definition responses (l : list event) : list response :=
  flat_map (λ e, match e with Query _ _ r => [r] | _ => [] end) l.

Definition errors (l : list event) : list string :=
  flat_map (λ e, match e with Print (MComparisonError msg) => [msg] | _ => [] end) l.

Definition writes (l : list event) : list (sink_op * option string) :=
  flat_map (λ e, match e with Write o failure => [(o, failure)] | _ => [] end) l.

Definition sink_events (ws : list (sink_op * option string)) : list event :=
  map (λ w, Write w.1 w.2) ws.

(** What a complete export leaves in the trace: the file opened, the header
    and every row written in turn, the file closed, nothing failing. *)
Fixpoint row_writes (file : string) (index : nat) (rows : list row)
    : list (sink_op * option string) :=
  match rows with
  | [] => []
  | r :: rows' => (SRow file index r, None) :: row_writes file (S index) rows'
  end.

Definition written_file (file : string) (fieldnames : list string) (rows : list row)
    : list (sink_op * option string) :=
  (SOpen file, None) :: (SHeader file fieldnames, None)
  :: row_writes file 0 rows ++ [(SClose file, None)].

(** The type a schema gives a column, as [dict(schema)[col]] reads it: the
    one of the last pair that names the column. *)
Definition declares (schema : list (string * string)) (col type : string) : Prop :=
  ∃ before after, schema = before ++ (col, type) :: after ∧ col ∉ after.*1.

(** Two sinks for the examples: one that does whatever is asked, one on
    which no file can be opened. *)
Definition accepting_sink : sink :=
  {| sink_io := λ _, None;
     value_error := λ wrong,
       "dict contains fields not in fieldnames: "
       +:+ join ", " (map (λ k, "'" +:+ k +:+ "'") wrong) |}.

Definition read_only_sink : sink :=
  {| sink_io := λ o, match o with
                     | SOpen _ => Some "Permission denied"
                     | _ => None
                     end;
     value_error := value_error accepting_sink |}.

Definition pipeline_ops : list op :=
  [OpSchema; OpSchema; OpRowCount; OpRowCount; OpCheck; OpSample; OpSample; OpExport].

(** A mismatch with its two types exchanged. *)
Definition swap_types (m : string * string * string) : string * string * string :=
  (m.1.1, m.2, m.1.2).

(** A collaborator that answers the two schema queries, with a common
    column, and fails every later query. *)
Definition failing_client : client := λ n _,
  match n with
  | 0 => Answer (SchemaRows [("a", "INT")])
  | 1 => Answer (SchemaRows [("a", "INT")])
  | _ => Failure "quota exceeded"
  end.

(** * Properties *)

(** ** Facts about the string primitives *)

Lemma append_nil_r (s : string) : s +:+ "" = s.
Proof. induction s as [|c s IH]; [done|]. by rewrite <- IH at 2. Qed.

Lemma append_cons (c : ascii) (s t : string) : String c s +:+ t = String c (s +:+ t).
Proof. done. Qed.

Lemma append_assoc (s1 s2 s3 : string) : (s1 +:+ s2) +:+ s3 = s1 +:+ s2 +:+ s3.
Proof.
  induction s1 as [|c s1 IH]; [done|]. rewrite !append_cons. by rewrite IH.
Qed.

Lemma length_append (s t : string) :
  String.length (s +:+ t) = String.length s + String.length t.
Proof.
  induction s as [|c s IH]; [done|]. rewrite append_cons. simpl. by rewrite IH.
Qed.

Lemma lstrip_head (s : string) :
  lstrip s = "" ∨ ∃ c t, lstrip s = String c t ∧ isspace c = false.
Proof.
  induction s as [|c s IH]; [by left|]. simpl.
  destruct (isspace c) eqn:E; [done|]. right. by exists c, s.
Qed.

Lemma rstrip_cons_nonspace (c : ascii) (s : string) :
  isspace c = false → rstrip (String c s) = String c (rstrip s).
Proof. intros E. simpl. rewrite E. by destruct (rstrip s). Qed.

Lemma rstrip_idem (s : string) : rstrip (rstrip s) = rstrip s.
Proof.
  induction s as [|c s IH]; [done|]. simpl.
  destruct (rstrip s) as [|d r] eqn:E.
  - destruct (isspace c) eqn:Ec; [done|]. simpl. by rewrite Ec.
  - change (rstrip (String c (String d r)) = String c (String d r)).
    simpl in IH |- *. destruct (rstrip r) eqn:Er.
    + destruct (isspace d); [done|]. by rewrite IH.
    + by rewrite IH.
Qed.

(** Text put before a text whose right-stripped form is not empty stays. *)
Lemma rstrip_app (p t : string) :
  rstrip t ≠ "" → rstrip (p +:+ t) = p +:+ rstrip t.
Proof.
  intros Ht. induction p as [|c p IH]; [done|].
  rewrite !append_cons. simpl. rewrite IH.
  destruct (p +:+ rstrip t) eqn:E; [|done].
  destruct p; [|done]. by destruct Ht.
Qed.

Lemma rstrip_app_nonspace (p : string) (c : ascii) (t : string) :
  isspace c = false → rstrip (p +:+ String c t) = p +:+ String c (rstrip t).
Proof.
  intros Ec. rewrite rstrip_app; by rewrite rstrip_cons_nonspace.
Qed.

Lemma strip_idem (s : string) : strip (strip s) = strip s.
Proof.
  unfold strip. destruct (lstrip_head s) as [->|(c & t & -> & Ec)]; [done|].
  rewrite (rstrip_cons_nonspace c t Ec). simpl lstrip. rewrite Ec.
  rewrite <- (rstrip_cons_nonspace c t Ec). apply rstrip_idem.
Qed.

(** A stripped text that is not empty starts with no space. *)
Lemma strip_head (s : string) :
  strip s = "" ∨ ∃ c t, strip s = String c t ∧ isspace c = false.
Proof.
  unfold strip. destruct (lstrip_head s) as [->|(c & t & -> & Ec)]; [by left|].
  right. exists c, (rstrip t). by rewrite rstrip_cons_nonspace.
Qed.

(** Stripping removes text at both ends and nothing else. *)
Lemma lstrip_decompose (s : string) : ∃ pre, s = pre +:+ lstrip s.
Proof.
  induction s as [|c s [pre IH]]; [by exists ""|]. simpl.
  destruct (isspace c); [|by exists ""].
  exists (String c pre). rewrite append_cons. by rewrite <- IH.
Qed.

Lemma rstrip_decompose (s : string) : ∃ post, s = rstrip s +:+ post.
Proof.
  induction s as [|c s [post IH]]; [by exists ""|]. simpl.
  destruct (rstrip s) as [|d r] eqn:E.
  - destruct (isspace c).
    + by exists (String c s).
    + exists post. rewrite append_cons. by rewrite <- IH.
  - exists post. rewrite append_cons. by rewrite <- IH.
Qed.

Lemma strip_decompose (s : string) : ∃ pre post, s = pre +:+ strip s +:+ post.
Proof.
  destruct (lstrip_decompose s) as [pre Hpre].
  destruct (rstrip_decompose (lstrip s)) as [post Hpost].
  exists pre, post. unfold strip. by rewrite <- Hpost.
Qed.

Lemma truthy_str_Some (s : string) : truthy_str (Some s) = true ↔ s ≠ "".
Proof.
  simpl. destruct (String.eqb_spec s "") as [->|Hne]; simpl; split; try done.
Qed.

Lemma truthy_str_true (o : option string) :
  truthy_str o = true ↔ ∃ s, o = Some s ∧ s ≠ "".
Proof.
  destruct o as [s|].
  - rewrite truthy_str_Some. split; [by exists s|]. by intros (? & [= <-] & ?).
  - split; [done|]. by intros (? & ? & ?).
Qed.

(** ** The model on the examples of the specification *)

Example normalize_where_clause_examples :
  normalize_where_clause None = None
  ∧ normalize_where_clause (Some "") = None
  ∧ normalize_where_clause (Some "  x > 1 ") = Some "where x > 1"
  ∧ normalize_where_clause (Some " WHERE x > 1") = Some "WHERE x > 1"
  ∧ normalize_order_by_clause (Some "a desc") = Some "order by a desc".
Proof. by repeat split. Qed.

Example build_column_list_explicit_wins :
  build_column_list (Some "x,y") (Some {["a"; "b"]}) = "x,y".
Proof. reflexivity. Qed.

Example analyze_schemas_example :
  let r := analyze_schemas [("a", "INT"); ("b", "STRING")]
             [("a", "INT"); ("b", "INT"); ("c", "BOOL")] None in
  common_columns r = {["a"; "b"]}
  ∧ only_in_table1 r = ∅
  ∧ only_in_table2 r = {["c"]}
  ∧ schema_mismatches r = [("b", "STRING", "INT")]
  ∧ schemas_identical r = false.
Proof. by vm_compute. Qed.

Example dict_later_pair_wins :
  dict [("a", "INT"); ("a", "STRING")] !! "a" = Some "STRING".
Proof. by vm_compute. Qed.

(** The export of three rows, the second with a key that the header lacks:
    the first row is written, the file is closed, the error is raised.  And
    on a sink that refuses to open the file nothing else is tried. *)
Example write_csv_example :
  write_csv accepting_sink "out.csv" ["a"]
    [[("a", "1")]; [("a", "2"); ("b", "3")]; [("a", "4")]] 0
  = Run (Raised "dict contains fields not in fieldnames: 'b'")
      [Write (SOpen "out.csv") None;
       Write (SHeader "out.csv" ["a"]) None;
       Write (SRow "out.csv" 0 [("a", "1")]) None;
       Write (SClose "out.csv") None] 0
  ∧ write_csv accepting_sink "out.csv" ["a"] [[("a", "1")]; []] 0
    = Run (Val ())
        [Write (SOpen "out.csv") None;
         Write (SHeader "out.csv" ["a"]) None;
         Write (SRow "out.csv" 0 [("a", "1")]) None;
         Write (SRow "out.csv" 1 []) None;
         Write (SClose "out.csv") None] 0
  ∧ write_csv read_only_sink "out.csv" ["a"] [[("a", "1")]] 0
    = Run (Raised "Permission denied")
        [Write (SOpen "out.csv") (Some "Permission denied")] 0.
Proof. by vm_compute. Qed.

Example build_row_count_query_example :
  build_row_count_query "p.d.t" (Some "where x > 1")
  = "SELECT COUNT(" +:+ "*) as count FROM p.d.t where x > 1".
Proof. reflexivity. Qed.

(** ** Clause normalisation *)

Lemma normalize_where_clause_stripped (F : string) :
  F ≠ "" →
  normalize_where_clause (Some F) =
    Some (if startswith (lower (strip F)) "where" then strip F
          else "where " +:+ strip F).
Proof.
  intros HF%truthy_str_Some. unfold normalize_where_clause. rewrite HF.
  simpl text_of. by destruct (startswith _ _).
Qed.

(** Normalising twice gives what normalising once gives, for every fragment
    but those made of whitespace only. *)
Lemma normalize_where_clause_idempotent_nonblank (F : option string) :
  (∀ s, F = Some s → s ≠ "" → strip s ≠ "") →
  normalize_where_clause (normalize_where_clause F) = normalize_where_clause F.
Proof.
  intros Hnb. destruct F as [s|]; [|done].
  destruct (decide (s = "")) as [->|Hs]; [done|].
  specialize (Hnb s eq_refl Hs).
  rewrite (normalize_where_clause_stripped s Hs).
  destruct (startswith (lower (strip s)) "where") eqn:Hp.
  - rewrite (normalize_where_clause_stripped _ Hnb), strip_idem. by rewrite Hp.
  - assert (strip ("where " +:+ strip s) = "where " +:+ strip s) as Hst.
    { unfold strip at 1. change (lstrip ("where " +:+ strip s)) with ("where " +:+ strip s).
      rewrite rstrip_app; unfold strip; rewrite rstrip_idem; [done|apply Hnb]. }
    rewrite normalize_where_clause_stripped; [|done]. by rewrite Hst.
Qed.

(** C4 (the code at the input that breaks the claim).  A fragment of one
    space is not empty, so it is stripped to the empty text and gets the
    keyword: the result is "where " with its trailing space.  Normalising
    that result strips the space, so normalising twice differs from
    normalising once. *)
Theorem normalize_where_clause_blank_not_idempotent :
  normalize_where_clause (Some " ") = Some "where "
  ∧ normalize_where_clause (normalize_where_clause (Some " ")) = Some "where"
  ∧ normalize_where_clause (normalize_where_clause (Some " "))
    ≠ normalize_where_clause (Some " ").
Proof. repeat split. discriminate. Qed.

(** C9.  A fragment that, once stripped, starts with the keyword in any
    casing comes back stripped and otherwise as it was written (a contiguous
    part of the input), and no second keyword is put before it; the same
    for the ordering clause and "order by". *)
Theorem normalize_keeps_existing_keyword :
  (∀ F, startswith (lower (strip F)) "where" = true →
     normalize_where_clause (Some F) = Some (strip F)
     ∧ normalize_where_clause (Some F) ≠ Some ("where " +:+ strip F)
     ∧ ∃ pre post, F = pre +:+ strip F +:+ post)
  ∧ (∀ F, startswith (lower (strip F)) "order by" = true →
     normalize_order_by_clause (Some F) = Some (strip F)
     ∧ normalize_order_by_clause (Some F) ≠ Some ("order by " +:+ strip F)
     ∧ ∃ pre post, F = pre +:+ strip F +:+ post).
Proof.
  split; intros F Hp.
  - assert (F ≠ "") as HF%truthy_str_Some by (by intros ->).
    unfold normalize_where_clause. rewrite HF. simpl text_of. rewrite Hp. simpl.
    split; [done|]. split; [|apply strip_decompose].
    intros [= E]. apply (f_equal String.length) in E.
    rewrite length_append in E. simpl in E. lia.
  - assert (F ≠ "") as HF%truthy_str_Some by (by intros ->).
    unfold normalize_order_by_clause. rewrite HF. simpl text_of. rewrite Hp. simpl.
    split; [done|]. split; [|apply strip_decompose].
    intros [= E]. apply (f_equal String.length) in E.
    rewrite length_append in E. simpl in E. lia.
Qed.

Lemma normalize_keeps_existing_keyword_witness :
  normalize_where_clause (Some "  WHERE x > 1 ") = Some "WHERE x > 1"
  ∧ normalize_order_by_clause (Some " Order By a desc") = Some "Order By a desc".
Proof.
  split.
  - exact (proj1 (proj1 normalize_keeps_existing_keyword "  WHERE x > 1 " eq_refl)).
  - exact (proj1 (proj2 normalize_keeps_existing_keyword " Order By a desc" eq_refl)).
Defined.

(** ** The projection list *)

Lemma sorted_Sorted (l : list string) : Sorted String.le (sorted l).
Proof. apply (Sorted_merge_sort String.le). Qed.

Lemma sorted_Permutation (l : list string) : sorted l ≡ₚ l.
Proof. apply (merge_sort_Permutation String.le). Qed.

(** The sorted form of a collection does not depend on the order in which
    the collection is enumerated. *)
Lemma sorted_unique (l l' : list string) :
  l' ≡ₚ l → Sorted String.le l' → l' = sorted l.
Proof.
  intros Hp Hs. apply (Sorted_unique String.le); [done|apply sorted_Sorted|].
  by rewrite sorted_Permutation.
Qed.

Lemma truthy_set_Some (X : gset string) : truthy_set (Some X) = true ↔ X ≠ ∅.
Proof. simpl. rewrite negb_true_iff, bool_decide_eq_false. done. Qed.

(** C6.  An explicit column string that is given (not [None], not empty)
    is returned as it is; otherwise a derived set that is given (not
    [None], not empty) is rendered as the comma-space-joined list of its
    names in ascending order, whatever the order [l0] in which the set
    enumerates them; otherwise the result is the wildcard. *)
Theorem build_column_list_precedence :
  (∀ s common, s ≠ "" → build_column_list (Some s) common = s)
  ∧ (∀ columns X l0, truthy_str columns = false → X ≠ ∅ →
       l0 ≡ₚ elements X →
       build_column_list columns (Some X) = join ", " (sorted l0)
       ∧ Sorted String.le (sorted l0)
       ∧ ∀ name, name ∈ sorted l0 ↔ name ∈ X)
  ∧ (∀ columns common, truthy_str columns = false → truthy_set common = false →
       build_column_list columns common = "*")
  ∧ build_column_list None (Some {["b"; "a"; "c"]}) = "a, b, c"
  ∧ build_column_list None None = "*".
Proof.
  split; [|split; [|split; [|split]]].
  - intros s common Hs%truthy_str_Some. unfold build_column_list. by rewrite Hs.
  - intros columns X l0 Hc HX%truthy_set_Some Hl0.
    unfold build_column_list. rewrite Hc, HX. simpl default.
    split; [|split].
    + f_equal. apply sorted_unique; [|apply sorted_Sorted].
      by rewrite sorted_Permutation.
    + apply sorted_Sorted.
    + intros name. by rewrite sorted_Permutation, Hl0, elem_of_elements.
  - intros columns common Hc HX. unfold build_column_list. by rewrite Hc, HX.
  - by vm_compute.
  - done.
Qed.

Lemma build_column_list_precedence_witness :
  build_column_list (Some "x,y") (Some {["a"; "b"]}) = "x,y"
  ∧ build_column_list None (Some {["b"; "a"; "c"]}) = join ", " (sorted ["c"; "b"; "a"])
  ∧ build_column_list (Some "") None = "*".
Proof.
  destruct build_column_list_precedence as (H1 & H2 & H3 & _).
  split; [|split].
  - apply H1. discriminate.
  - apply H2; [reflexivity| |].
    + intros E. apply (f_equal (λ X : gset string, bool_decide ("a" ∈ X))) in E.
      vm_compute in E. discriminate.
    + apply (bool_decide_unpack _). by vm_compute.
  - apply H3; reflexivity.
Defined.

(** ** The set-difference query *)

Lemma nospace_rstrip (s : string) : nospace s = true → rstrip s = s.
Proof.
  induction s as [|c s IH]; [done|]. simpl.
  intros [Hc%negb_true_iff Hs]%andb_true_iff.
  rewrite (IH Hs), Hc. by destruct s.
Qed.

Lemma nospace_string_of_uint (d : Decimal.uint) :
  nospace (NilEmpty.string_of_uint d) = true.
Proof. induction d; simpl; try done. Qed.

Lemma count_string_of_uint (c : ascii) (d : Decimal.uint) :
  (Ascii.ltb c "0" = true) → count_char c (NilEmpty.string_of_uint d) = 0.
Proof.
  intros Hc. 
  assert (∀ k, Ascii.ltb c "0" = true → Ascii.leb "0" k = true → Ascii.eqb k c = false) as Hne.
  { intros k H1 H2. apply Ascii.eqb_neq. intros ->.
    unfold Ascii.ltb, Ascii.leb in *. rewrite Ascii.compare_antisym in H2.
    by destruct (Ascii.compare c "0"). }
  induction d as [|d IH|d IH|d IH|d IH|d IH|d IH|d IH|d IH|d IH|d IH];
    [done|..]; cbn -[Ascii.eqb]; by rewrite Hne, IH.
Qed.

Lemma str_of_int_nospace (n : Z) : nospace (str_of_int n) = true.
Proof.
  unfold str_of_int, NilZero.string_of_int, NilZero.string_of_uint.
  destruct (Z.to_int n) as [d|d]; [destruct d|]; simpl;
    try done; apply nospace_string_of_uint || (destruct d; simpl; try done; apply nospace_string_of_uint).
Qed.

Lemma str_of_int_nonempty (n : Z) : str_of_int n ≠ "".
Proof.
  unfold str_of_int, NilZero.string_of_int, NilZero.string_of_uint.
  destruct (Z.to_int n) as [d|d]; [by destruct d|done].
Qed.

Lemma rstrip_str_of_int (n : Z) : rstrip (str_of_int n) = str_of_int n.
Proof. apply nospace_rstrip, str_of_int_nospace. Qed.

Lemma count_str_of_int_paren (n : Z) : count_char "(" (str_of_int n) = 0.
Proof.
  assert (∀ d, count_char "(" (NilZero.string_of_uint d) = 0) as Hu.
  { intros d. unfold NilZero.string_of_uint.
    destruct d; [done|by apply count_string_of_uint..]. }
  unfold str_of_int, NilZero.string_of_int.
  destruct (Z.to_int n) as [d|d]; [apply Hu|].
  change (0 + count_char "(" (NilZero.string_of_uint d) = 0). by rewrite Hu.
Qed.

Lemma count_app (c : ascii) (s t : string) :
  count_char c (s +:+ t) = count_char c s + count_char c t.
Proof.
  induction s as [|d s IH]; [done|]. rewrite append_cons.
  cbn -[Ascii.eqb]. rewrite IH. lia.
Qed.

Lemma count_lstrip (c : ascii) (s : string) :
  isspace c = false → count_char c (lstrip s) = count_char c s.
Proof.
  intros Hc. induction s as [|d s IH]; [done|]. cbn -[Ascii.eqb isspace].
  destruct (isspace d) eqn:Hd; [|done].
  destruct (Ascii.eqb_spec d c) as [->|_]; [congruence|done].
Qed.

Lemma count_rstrip (c : ascii) (s : string) :
  isspace c = false → count_char c (rstrip s) = count_char c s.
Proof.
  intros Hc. induction s as [|d s IH]; [done|]. cbn -[Ascii.eqb isspace].
  destruct (rstrip s) as [|e r] eqn:E.
  - destruct (isspace d) eqn:Hd.
    + destruct (Ascii.eqb_spec d c) as [->|_]; [congruence|]. by rewrite <- IH.
    + cbn -[Ascii.eqb]. by rewrite <- IH.
  - cbn -[Ascii.eqb] in IH |- *. by rewrite IH.
Qed.

Lemma count_strip (c : ascii) (s : string) :
  isspace c = false → count_char c (strip s) = count_char c s.
Proof. intros Hc. unfold strip. by rewrite count_rstrip, count_lstrip. Qed.

Lemma text_of_falsy (o : option string) : truthy_str o = false → text_of o = "".
Proof.
  destruct o as [s|]; [|done]. simpl.
  by destruct (String.eqb_spec s "") as [->|].
Qed.

Lemma lstrip_nonspace (c : ascii) (s : string) :
  isspace c = false → lstrip (String c s) = String c s.
Proof. intros Hc. simpl. by rewrite Hc. Qed.

Lemma outer_select_head (label : option string) :
  ∃ t, outer_select label = String "S" t.
Proof. unfold outer_select. destruct (truthy_str label); by eexists. Qed.

(** The composer's text before the final [strip]: the body, wrapped or not,
    then the row cap. *)
Lemma build_except_distinct_query_body
    (t1 t2 cols : string) (wc oc : option string) (limit : option Z)
    (label : option string) :
  build_except_distinct_query t1 t2 cols wc oc limit label =
    strip ((if wraps label oc
            then outer_select label +:+ " FROM (" +:+ except_query t1 t2 cols wc
                 +:+ ")" +:+ order_part oc
            else except_query t1 t2 cols wc) +:+ limit_part limit).
Proof.
  unfold build_except_distinct_query, wraps, outer_select, order_part, limit_part.
  destruct (truthy_str label), (truthy_str oc), (truthy_int limit); simpl orb; cbv zeta;
    rewrite ?append_assoc, ?append_nil_r; reflexivity.
Qed.

Lemma strip_wrapped (label : option string) (inner tail : string) :
  strip (outer_select label +:+ " FROM (" +:+ inner +:+ ")" +:+ tail) =
    outer_select label +:+ " FROM (" +:+ inner +:+ ")" +:+ rstrip tail.
Proof.
  destruct (outer_select_head label) as [t ->]. unfold strip.
  rewrite append_cons, lstrip_nonspace by done.
  rewrite <- append_cons.
  rewrite <- (append_assoc (String "S" t) " FROM (" (inner +:+ ")" +:+ tail)).
  rewrite <- (append_assoc _ inner (")" +:+ tail)).
  change (")" +:+ tail) with (String ")" tail).
  rewrite rstrip_app_nonspace by done.
  by rewrite !append_assoc.
Qed.

Lemma rstrip_limit (t : string) (n : Z) :
  rstrip (t +:+ " LIMIT " +:+ str_of_int n) = t +:+ " LIMIT " +:+ str_of_int n.
Proof.
  rewrite <- (append_assoc t " LIMIT " (str_of_int n)).
  rewrite rstrip_app; rewrite rstrip_str_of_int; [|apply str_of_int_nonempty].
  by rewrite append_assoc.
Qed.

Lemma limit_part_truthy (n : Z) :
  n ≠ 0%Z → limit_part (Some n) = " LIMIT " +:+ str_of_int n.
Proof.
  intros Hn. unfold limit_part. simpl.
  by destruct (Z.eqb_spec n 0).
Qed.

(** C2.  With a label given (not [None], not empty) the text is the inner
    set-difference query inside one outer labeled projection, with or
    without an ordering clause; with an ordering clause and no label it is
    the inner query inside one outer [SELECT *] with the ordering after
    the closing parenthesis; with neither it is the inner query, stripped,
    with the row cap if any.  The composer opens one parenthesis when it
    wraps and none otherwise, so a wrap is never nested in another. *)
Theorem build_except_distinct_query_wraps_once
    (t1 t2 cols : string) (wc oc : option string) (limit : option Z)
    (label : option string) :
  let inner := except_query t1 t2 cols wc in
  let q := build_except_distinct_query t1 t2 cols wc oc limit label in
  (truthy_str label = true →
     q = "SELECT *, '" +:+ text_of label +:+ "' as source_table FROM (" +:+ inner
         +:+ ")" +:+ rstrip (order_part oc +:+ limit_part limit))
  ∧ (truthy_str label = false → truthy_str oc = true →
     q = "SELECT * FROM (" +:+ inner +:+ ")"
         +:+ rstrip (" " +:+ text_of oc +:+ limit_part limit))
  ∧ (truthy_str label = false → truthy_str oc = false →
     q = strip (inner +:+ limit_part limit))
  ∧ count_char "(" q =
      count_char "(" inner + count_char "(" (text_of label)
      + count_char "(" (text_of oc) + (if wraps label oc then 1 else 0)
  ∧ build_except_distinct_query "A" "B" "a, b" None None None (Some "exclusive_to_A")
    = "SELECT *, 'exclusive_to_A' as source_table FROM (" +:+ nl +:+
      "SELECT a, b FROM A" +:+ nl +:+ "EXCEPT DISTINCT" +:+ nl +:+
      "SELECT a, b FROM B)"
  ∧ occurrences "FROM ("
      (build_except_distinct_query "A" "B" "a, b" None None None
         (Some "exclusive_to_A")) = 1.
Proof.
  intros inner q. subst q. rewrite build_except_distinct_query_body. fold inner.
  split; [|split; [|split; [|split; [|split]]]].
  - intros Hl. unfold wraps. rewrite Hl. simpl orb. cbv iota.
    rewrite !append_assoc, strip_wrapped. unfold outer_select. rewrite Hl.
    by rewrite !append_assoc.
  - intros Hl Ho. unfold wraps. rewrite Hl, Ho. simpl orb. cbv iota.
    rewrite !append_assoc, strip_wrapped. unfold outer_select, order_part. rewrite Hl, Ho.
    by rewrite !append_assoc.
  - intros Hl Ho. unfold wraps. by rewrite Hl, Ho.
  - rewrite count_strip by done. rewrite count_app.
    assert (count_char "(" (limit_part limit) = 0) as ->.
    { unfold limit_part. destruct (truthy_int limit); [|done].
      rewrite count_app, count_str_of_int_paren. done. }
    unfold wraps, outer_select, order_part.
    destruct (truthy_str label) eqn:Hl, (truthy_str oc) eqn:Ho; simpl orb; cbv iota;
      rewrite ?count_app, ?(text_of_falsy _ Hl), ?(text_of_falsy _ Ho);
      cbn [count_char Ascii.eqb Bool.eqb]; lia.
  - by vm_compute.
  - by vm_compute.
Qed.

Lemma build_except_distinct_query_wraps_once_witness :
  build_except_distinct_query "A" "B" "a" None None None (Some "only_A")
    = "SELECT *, 'only_A' as source_table FROM ("
      +:+ except_query "A" "B" "a" None +:+ ")"
  ∧ build_except_distinct_query "A" "B" "a" None (Some "order by a") None None
    = "SELECT * FROM (" +:+ except_query "A" "B" "a" None +:+ ") order by a"
  ∧ build_except_distinct_query "A" "B" "a" None None None None
    = strip (except_query "A" "B" "a" None).
Proof.
  split; [|split].
  - exact (proj1 (build_except_distinct_query_wraps_once
                    "A" "B" "a" None None None (Some "only_A")) eq_refl).
  - exact (proj1 (proj2 (build_except_distinct_query_wraps_once
                    "A" "B" "a" None (Some "order by a") None None)) eq_refl eq_refl).
  - exact (proj1 (proj2 (proj2 (build_except_distinct_query_wraps_once
                    "A" "B" "a" None None None None))) eq_refl eq_refl).
Defined.

Lemma lstrip_except_query (t1 t2 cols : string) (wc : option string) (t : string) :
  lstrip (except_query t1 t2 cols wc +:+ t) =
    "SELECT " +:+ cols +:+ " FROM " +:+ t1 +:+ where_part wc +:+ nl +:+
    "EXCEPT DISTINCT" +:+ nl +:+
    "SELECT " +:+ cols +:+ " FROM " +:+ t2 +:+ where_part wc +:+ t.
Proof. unfold except_query. cbv zeta. rewrite !append_assoc. reflexivity. Qed.

(** C10.  A row cap that is given (not [None], not zero) does not by
    itself cause wrapping: with no label and no ordering clause the text is
    the inner query, without its leading newline, followed by the LIMIT
    clause; when the query is wrapped the LIMIT clause comes after the
    closing parenthesis and the ordering clause.  In both cases the LIMIT
    clause is the end of the text and is appended once; a row cap that is
    not given appends none. *)
Theorem build_except_distinct_query_limit_last
    (t1 t2 cols : string) (wc oc : option string) (limit : option Z)
    (label : option string) :
  let inner := except_query t1 t2 cols wc in
  let q := build_except_distinct_query t1 t2 cols wc oc limit label in
  (∀ n, limit = Some n → n ≠ 0%Z →
     (wraps label oc = false →
        q = "SELECT " +:+ cols +:+ " FROM " +:+ t1 +:+ where_part wc +:+ nl +:+
            "EXCEPT DISTINCT" +:+ nl +:+
            "SELECT " +:+ cols +:+ " FROM " +:+ t2 +:+ where_part wc
            +:+ " LIMIT " +:+ str_of_int n)
     ∧ (wraps label oc = true →
        q = outer_select label +:+ " FROM (" +:+ inner +:+ ")" +:+ order_part oc
            +:+ " LIMIT " +:+ str_of_int n))
  ∧ (truthy_int limit = false →
     q = strip (if wraps label oc
                then outer_select label +:+ " FROM (" +:+ inner +:+ ")"
                     +:+ order_part oc
                else inner))
  ∧ occurrences " LIMIT "
      (build_except_distinct_query "A" "B" "a" (Some "where a > 0")
         (Some "order by a") (Some 10%Z) None) = 1.
Proof.
  intros inner q. subst q. rewrite build_except_distinct_query_body. fold inner.
  split; [|split].
  - intros n -> Hn. rewrite (limit_part_truthy n Hn). split; intros Hw; rewrite Hw.
    + unfold strip, inner. rewrite lstrip_except_query.
      pose proof (rstrip_limit
        ("SELECT " +:+ cols +:+ " FROM " +:+ t1 +:+ where_part wc +:+ nl +:+
         "EXCEPT DISTINCT" +:+ nl +:+
         "SELECT " +:+ cols +:+ " FROM " +:+ t2 +:+ where_part wc) n) as H.
      rewrite !append_assoc in H. exact H.
    + rewrite !append_assoc, strip_wrapped. by rewrite rstrip_limit.
  - intros Hl. unfold limit_part. rewrite Hl. by rewrite append_nil_r.
  - by vm_compute.
Qed.

Lemma build_except_distinct_query_limit_last_witness :
  build_except_distinct_query "A" "B" "*" None None (Some 10%Z) None
    = "SELECT * FROM A" +:+ nl +:+ "EXCEPT DISTINCT" +:+ nl +:+
      "SELECT * FROM B LIMIT 10"
  ∧ build_except_distinct_query "A" "B" "*" None (Some "order by a") (Some 10%Z) None
    = "SELECT * FROM (" +:+ except_query "A" "B" "*" None
      +:+ ") order by a LIMIT 10"
  ∧ build_except_distinct_query "A" "B" "*" None None (Some 0%Z) None
    = "SELECT * FROM A" +:+ nl +:+ "EXCEPT DISTINCT" +:+ nl +:+ "SELECT * FROM B".
Proof.
  split; [|split].
  - apply (proj1 (proj1 (build_except_distinct_query_limit_last
             "A" "B" "*" None None (Some 10%Z) None) 10%Z eq_refl ltac:(lia))).
    reflexivity.
  - apply (proj2 (proj1 (build_except_distinct_query_limit_last
             "A" "B" "*" None (Some "order by a") (Some 10%Z) None)
             10%Z eq_refl ltac:(lia))).
    reflexivity.
  - apply (proj1 (proj2 (build_except_distinct_query_limit_last
             "A" "B" "*" None None (Some 0%Z) None))).
    reflexivity.
Defined.

(** ** The union query *)

Lemma join_cons (sep x y : string) (l : list string) :
  join sep (x :: y :: l) = x +:+ sep +:+ join sep (y :: l).
Proof. done. Qed.

(** C7.  Without an ordering clause the text is the sub-queries, each in
    parentheses and as it was given, joined by UNION ALL.  With an ordering
    clause that is given (not [None], not empty) it is that same union
    inside one outer [SELECT *], and the ordering clause stands once, after
    the parenthesis that closes the union. *)
Theorem build_union_query_orders_outside :
  build_union_query [] None = ""
  ∧ (∀ q, build_union_query [q] None = "(" +:+ q +:+ ")")
  ∧ (∀ q q' qs, build_union_query (q :: q' :: qs) None
       = "(" +:+ q +:+ ") UNION ALL " +:+ build_union_query (q' :: qs) None)
  ∧ (∀ qs oc, truthy_str oc = false →
       build_union_query qs oc = build_union_query qs None)
  ∧ (∀ qs oc, truthy_str oc = true →
       build_union_query qs oc
       = "SELECT * FROM (" +:+ build_union_query qs None +:+ ") " +:+ text_of oc)
  ∧ (∀ q1 q2 oc, oc ≠ "" →
       build_union_query [q1; q2] (Some oc)
       = "SELECT * FROM ((" +:+ q1 +:+ ") UNION ALL (" +:+ q2 +:+ ")) " +:+ oc).
Proof.
  split; [done|]. split; [done|]. split; [|split; [|split]].
  - intros q q' qs. unfold build_union_query. simpl truthy_str. cbv iota.
    rewrite !map_cons, join_cons. rewrite !append_assoc. reflexivity.
  - intros qs oc Ho. unfold build_union_query. by rewrite Ho.
  - intros qs oc Ho. unfold build_union_query. by rewrite Ho.
  - intros q1 q2 oc Ho%truthy_str_Some. unfold build_union_query. rewrite Ho.
    simpl map. rewrite join_cons. unfold join. simpl String.concat. simpl text_of.
    rewrite !append_assoc. reflexivity.
Qed.

Lemma build_union_query_orders_outside_witness :
  build_union_query ["SELECT 1"; "SELECT 2"] (Some "order by 1")
  = "SELECT * FROM ((SELECT 1) UNION ALL (SELECT 2)) order by 1".
Proof.
  apply (proj2 (proj2 (proj2 (proj2 (proj2 build_union_query_orders_outside))))
           "SELECT 1" "SELECT 2" "order by 1").
  discriminate.
Defined.

(** ** Schema reconciliation *)

Lemma flat_map_nil_iff {A B} (f : A → list B) (l : list A) :
  flat_map f l = [] ↔ ∀ x, x ∈ l → f x = [].
Proof.
  induction l as [|a l IH]; simpl.
  - split; [|done]. intros _ x Hx. by apply elem_of_nil in Hx.
  - split.
    + intros [Ha Hl]%app_eq_nil x [->|Hx]%elem_of_cons; [done|]. by apply IH.
    + intros H. rewrite (H a) by (apply elem_of_cons; by left). simpl.
      apply IH. intros x Hx. apply H. apply elem_of_cons. by right.
Qed.

Lemma dict_snoc (l : list (string * string)) (p : string * string) :
  dict (l ++ [p]) = <[p.1 := p.2]> (dict l).
Proof. unfold dict. by rewrite foldl_snoc. Qed.

Lemma dict_lookup_elem (l : list (string * string)) (k t : string) :
  dict l !! k = Some t → (k, t) ∈ l.
Proof.
  induction l as [|[k' t'] l IH] using rev_ind; [done|].
  rewrite dict_snoc, elem_of_app, list_elem_of_singleton. simpl.
  destruct (decide (k' = k)) as [->|Hne].
  - rewrite lookup_insert_eq. intros [= ->]. by right.
  - rewrite lookup_insert_ne by done. intros H. left. by apply IH.
Qed.

Lemma dict_lookup_is_Some (l : list (string * string)) (k : string) :
  is_Some (dict l !! k) ↔ k ∈ l.*1.
Proof.
  induction l as [|[k' t'] l IH] using rev_ind.
  - split; [by intros [? ?]|by intros ?%elem_of_nil].
  - rewrite dict_snoc, fmap_app, elem_of_app. simpl.
    rewrite list_elem_of_singleton, <- IH.
    destruct (decide (k' = k)) as [->|Hne].
    + rewrite lookup_insert_eq. split; [by right|by eexists].
    + rewrite lookup_insert_ne by done. split; [by left|]. by intros [|].
Qed.

Lemma dict_lookup_NoDup (l : list (string * string)) (k t : string) :
  NoDup l.*1 → (k, t) ∈ l → dict l !! k = Some t.
Proof.
  induction l as [|[k' t'] l IH] using rev_ind; [by intros _ ?%elem_of_nil|].
  rewrite fmap_app, dict_snoc. simpl.
  intros [Hl [Hd _]]%NoDup_app [Hin|[= -> ->]%list_elem_of_singleton]%elem_of_app.
  - rewrite lookup_insert_ne; [by apply IH|].
    intros <-. apply (Hd k'); [|by apply list_elem_of_singleton].
    apply list_elem_of_fmap. by exists (k', t).
  - by rewrite lookup_insert_eq.
Qed.

(** What [dict] looks up for a column is the type of the last pair that
    names it. *)
Lemma dict_lookup_declares (l : list (string * string)) (k t : string) :
  dict l !! k = Some t ↔ declares l k t.
Proof.
  unfold declares. induction l as [|[k' t'] l IH] using rev_ind.
  - split; [done|]. intros (before & after & E & _). by destruct before.
  - rewrite dict_snoc. simpl. destruct (decide (k' = k)) as [->|Hne].
    + rewrite lookup_insert_eq. split.
      * intros [= ->]. exists l, []. split; [done|]. by intros ?%elem_of_nil.
      * intros (before & after & E & Hk).
        destruct after as [|x after _] using rev_ind.
        -- apply app_inj_tail in E as [_ [= ->]]. done.
        -- change (before ++ (k, t) :: after ++ [x])
             with (before ++ ((k, t) :: after) ++ [x]) in E.
           rewrite app_assoc in E. apply app_inj_tail in E as [_ <-].
           destruct Hk. rewrite fmap_app. apply elem_of_app. right.
           by apply list_elem_of_singleton.
    + rewrite lookup_insert_ne by done. rewrite IH. split.
      * intros (before & after & -> & Hk). exists before, (after ++ [(k', t')]).
        split; [by rewrite <- app_assoc|].
        rewrite fmap_app. intros [H|H%list_elem_of_singleton]%elem_of_app; [done|].
        by destruct Hne.
      * intros (before & after & E & Hk).
        destruct after as [|x after _] using rev_ind.
        -- apply app_inj_tail in E as [_ [= -> _]]. done.
        -- change (before ++ (k, t) :: after ++ [x])
             with (before ++ ((k, t) :: after) ++ [x]) in E.
           rewrite app_assoc in E. apply app_inj_tail in E as [-> <-].
           exists before, after. split; [done|].
           intros H. apply Hk. rewrite fmap_app. apply elem_of_app. by left.
Qed.

Lemma analyze_schemas_fields (schema1 schema2 : list (string * string))
    (specific_columns : option string) :
  let r := analyze_schemas schema1 schema2 specific_columns in
  let cols1 : gset string := list_to_set schema1.*1 in
  let cols2 : gset string := list_to_set schema2.*1 in
  let specified : gset string :=
    list_to_set (map strip (split "," (text_of specific_columns))) in
  common_columns r
    = (if truthy_str specific_columns then (specified ∩ cols1) ∩ cols2
       else cols1 ∩ cols2)
  ∧ missing_specified_cols r
    = (if truthy_str specific_columns then specified ∖ common_columns r else ∅)
  ∧ only_in_table1 r = cols1 ∖ cols2
  ∧ only_in_table2 r = cols2 ∖ cols1
  ∧ schema_mismatches r
    = flat_map (λ col,
        match dict schema1 !! col, dict schema2 !! col with
        | Some type1, Some type2 =>
            if bool_decide (type1 ≠ type2) then [(col, type1, type2)] else []
        | _, _ => []
        end) (elements (common_columns r)).
Proof. unfold analyze_schemas. by destruct (truthy_str specific_columns). Qed.

Lemma common_columns_listed (schema1 schema2 : list (string * string))
    (specific_columns : option string) (x : string) :
  x ∈ common_columns (analyze_schemas schema1 schema2 specific_columns) →
  x ∈ schema1.*1 ∧ x ∈ schema2.*1.
Proof.
  destruct (analyze_schemas_fields schema1 schema2 specific_columns) as (-> & _).
  destruct (truthy_str specific_columns);
    rewrite !elem_of_intersection, !elem_of_list_to_set; tauto.
Qed.

Lemma elem_of_flat_map {A B} (f : A → list B) (l : list A) (y : B) :
  y ∈ flat_map f l ↔ ∃ x, x ∈ l ∧ y ∈ f x.
Proof.
  rewrite list_elem_of_In, in_flat_map. split; intros (x & Hx & Hy); exists x.
  - by rewrite !list_elem_of_In.
  - by rewrite <- !list_elem_of_In.
Qed.

Lemma analyze_schemas_flag (schema1 schema2 : list (string * string))
    (specific_columns : option string) :
  let r := analyze_schemas schema1 schema2 specific_columns in
  schemas_identical r
  = bool_decide (length schema1 = length schema2)
    && bool_decide (schema_mismatches r = [])
    && negb (truthy_str specific_columns).
Proof. unfold analyze_schemas. by destruct (truthy_str specific_columns). Qed.

(** The fields of the analysis when a column subset is in effect. *)
Lemma analyze_schemas_specified (schema1 schema2 : list (string * string)) (sc : string) :
  sc ≠ "" →
  let r := analyze_schemas schema1 schema2 (Some sc) in
  let specified : gset string := list_to_set (map strip (split "," sc)) in
  common_columns r
    = (specified ∩ list_to_set schema1.*1) ∩ list_to_set schema2.*1
  ∧ missing_specified_cols r = specified ∖ common_columns r
  ∧ schemas_identical r = false.
Proof.
  intros Hsc%truthy_str_Some. unfold analyze_schemas. rewrite Hsc.
  cbv zeta. simpl text_of. cbn [common_columns missing_specified_cols schemas_identical].
  split; [done|]. split; [done|]. simpl negb. by rewrite andb_false_r.
Qed.

(** C3.  With a column subset in effect (given, not empty), a specified
    name (a piece between commas, stripped) that one of the two schemas lacks
    is in [missing_specified_cols] and not in [common_columns].  The common
    columns are the names both schemas list, restricted to the specified
    names when a subset is in effect.  The mismatches are the common columns
    to which the two schemas give different types, with these types.  The
    flag [schemas_identical] holds exactly when the two schemas have the
    same number of columns, give no column two different types, and no
    subset is in effect; so a subset forces it to [False], also when it
    names every column of two equal schemas. *)
Theorem analyze_schemas_subset_and_flag
    (schema1 schema2 : list (string * string)) (specific_columns : option string) :
  let r := analyze_schemas schema1 schema2 specific_columns in
  (∀ sc name, specific_columns = Some sc → sc ≠ "" →
     name ∈ map strip (split "," sc) →
     name ∉ schema1.*1 ∨ name ∉ schema2.*1 →
     name ∈ missing_specified_cols r ∧ name ∉ common_columns r)
  ∧ (∀ col, col ∈ common_columns r ↔
       col ∈ schema1.*1 ∧ col ∈ schema2.*1
       ∧ (truthy_str specific_columns = true →
            col ∈ map strip (split "," (text_of specific_columns))))
  ∧ (∀ col type1 type2,
       (col, type1, type2) ∈ schema_mismatches r ↔
       col ∈ common_columns r
       ∧ declares schema1 col type1 ∧ declares schema2 col type2
       ∧ type1 ≠ type2)
  ∧ (schemas_identical r = true ↔
       length schema1 = length schema2
       ∧ (∀ col type1 type2,
            declares schema1 col type1 → declares schema2 col type2 →
            type1 = type2)
       ∧ truthy_str specific_columns = false)
  ∧ (∀ sc, specific_columns = Some sc → sc ≠ "" → schemas_identical r = false)
  ∧ schemas_identical (analyze_schemas [("a", "INT")] [("a", "INT")] None) = true
  ∧ schemas_identical (analyze_schemas [("a", "INT")] [("a", "STRING")] None) = false
  ∧ schemas_identical (analyze_schemas [("a", "INT")] [("a", "INT")] (Some "a")) = false.
Proof.
  intros r.
  pose proof (analyze_schemas_flag schema1 schema2 specific_columns) as Hflag.
  destruct (analyze_schemas_fields schema1 schema2 specific_columns)
    as (Hc & Hm & _ & _ & Hmis).
  cbv zeta in Hflag. fold r in Hflag, Hc, Hm, Hmis.
  assert (∀ col, col ∈ common_columns r ↔
            col ∈ schema1.*1 ∧ col ∈ schema2.*1
            ∧ (truthy_str specific_columns = true →
                 col ∈ map strip (split "," (text_of specific_columns))))
    as Hcommon.
  { intros col. rewrite Hc. destruct (truthy_str specific_columns);
      rewrite !elem_of_intersection, !elem_of_list_to_set; [tauto|].
    split; [intros [? ?]; by repeat split|tauto]. }
  assert (∀ col type1 type2,
            (col, type1, type2) ∈ schema_mismatches r ↔
            col ∈ common_columns r
            ∧ declares schema1 col type1 ∧ declares schema2 col type2
            ∧ type1 ≠ type2) as Hmismatch.
  { intros col type1 type2.
    rewrite <- !dict_lookup_declares, Hmis, elem_of_flat_map. split.
    - intros (x & Hx%elem_of_elements & Hy).
      destruct (dict schema1 !! x) as [t1|] eqn:E1; [|by apply elem_of_nil in Hy].
      destruct (dict schema2 !! x) as [t2|] eqn:E2; [|by apply elem_of_nil in Hy].
      case_bool_decide; [|by apply elem_of_nil in Hy].
      apply list_elem_of_singleton in Hy as [= -> -> ->]. done.
    - intros (Hcol & E1 & E2 & Hne). exists col.
      split; [by apply elem_of_elements|].
      rewrite E1, E2, bool_decide_eq_true_2 by done. by apply list_elem_of_singleton. }
  split; [|split; [exact Hcommon|split; [exact Hmismatch|split; [|split; [|split; [|split]]]]]].
  - intros sc name -> Hsc Hname Habs.
    destruct (analyze_schemas_specified schema1 schema2 sc Hsc) as (Hc' & Hm' & _).
    fold r in Hc', Hm'. rewrite Hm', Hc'.
    apply (elem_of_list_to_set (C := gset string)) in Hname.
    rewrite elem_of_difference, !elem_of_intersection, !elem_of_list_to_set.
    rewrite elem_of_list_to_set in Hname. tauto.
  - rewrite Hflag, !andb_true_iff, !bool_decide_eq_true, negb_true_iff.
    split.
    + intros [[Hlen Hnone] Hsub]. split; [done|]. split; [|done].
      intros col type1 type2 H1 H2.
      destruct (decide (type1 = type2)) as [|Hne]; [done|].
      assert ((col, type1, type2) ∈ schema_mismatches r) as Hin.
      { apply Hmismatch. split; [|done]. apply Hcommon.
        destruct H1 as (b1 & a1 & -> & _), H2 as (b2 & a2 & -> & _).
        rewrite !fmap_app, !fmap_cons, !elem_of_app, !elem_of_cons. simpl.
        split; [tauto|]. split; [tauto|]. by rewrite Hsub. }
      rewrite Hnone in Hin. by apply elem_of_nil in Hin.
    + intros (Hlen & Htypes & Hsub). split; [split; [done|]|done].
      destruct (schema_mismatches r) as [|[[col type1] type2] rest] eqn:E; [done|].
      assert ((col, type1, type2) ∈ (col, type1, type2) :: rest) as Hin
        by (apply elem_of_cons; by left).
      apply Hmismatch in Hin as (_ & H1 & H2 & Hne).
      by destruct Hne, (Htypes col type1 type2).
  - intros sc -> Hsc. by apply analyze_schemas_specified.
  - by vm_compute.
  - by vm_compute.
  - by vm_compute.
Qed.

Lemma analyze_schemas_subset_and_flag_witness :
  let r := analyze_schemas [("a", "INT"); ("b", "STRING")]
             [("a", "INT"); ("b", "INT"); ("c", "BOOL")] (Some "a, zz") in
  ("zz" ∈ missing_specified_cols r ∧ "zz" ∉ common_columns r)
  ∧ schemas_identical r = false.
Proof.
  intros r. split.
  - apply (proj1 (analyze_schemas_subset_and_flag
                    [("a", "INT"); ("b", "STRING")]
                    [("a", "INT"); ("b", "INT"); ("c", "BOOL")] (Some "a, zz"))
             "a, zz" "zz" eq_refl).
    + discriminate.
    + apply (bool_decide_unpack _). by vm_compute.
    + left. apply (bool_decide_unpack _). by vm_compute.
  - apply (proj1 (proj2 (proj2 (proj2 (proj2 (analyze_schemas_subset_and_flag
                    [("a", "INT"); ("b", "STRING")]
                    [("a", "INT"); ("b", "INT"); ("c", "BOOL")] (Some "a, zz"))))))
             "a, zz" eq_refl).
    discriminate.
Defined.

(** ** Relation paths and the entry point *)

Lemma split_length (sep : ascii) (s : string) :
  length (split sep s) = S (count_char sep s).
Proof.
  induction s as [|c s IH]; [done|]. cbn -[Ascii.eqb].
  destruct (Ascii.eqb c sep); simpl; [by rewrite IH|].
  destruct (split sep s); simpl in *; lia.
Qed.

Lemma parse_table_path_ok (path : string) :
  (∃ project dataset table, parse_table_path path = inr (project, dataset, table))
  ↔ length (split "." path) = 3.
Proof.
  unfold parse_table_path.
  destruct (split "." path) as [|a [|b [|c [|d l]]]]; simpl;
    (split; [by intros (? & ? & ? & ?)|intros ?; try done]).
  by exists a, b, c.
Qed.

Lemma parse_table_path_error (path : string) :
  length (split "." path) ≠ 3 →
  parse_table_path path
  = inl ("Table path must be in format 'project.dataset.table', got: " +:+ path).
Proof.
  unfold parse_table_path.
  by destruct (split "." path) as [|a [|b [|c [|d l]]]].
Qed.

(** C5 (the claim as stated fails here).  The path "a..b" has three
    segments, the middle one empty: it is not a path of three non-empty
    segments, and parsing succeeds on it. *)
Lemma parse_table_path_accepts_empty_segment :
  parse_table_path "a..b" = inr ("a", "", "b")
  ∧ ¬ three_nonempty_segments "a..b"
  ∧ ¬ ((∃ project dataset table,
          parse_table_path "a..b" = inr (project, dataset, table))
       ↔ three_nonempty_segments "a..b").
Proof.
  assert (¬ three_nonempty_segments "a..b") as Hn.
  { intros (p & d & t & H & _ & Hd & _). by injection H as <- <- <-. }
  split; [done|]. split; [done|].
  intros [H _]. apply Hn, H. by exists "a", "", "b".
Qed.

(** C5, amended.  Parsing succeeds exactly on the paths that split at
    their dots into three segments, that is the paths with two dots; the
    segments may be empty.  A path of three non-empty segments parses.
    When one of the two paths does not parse, [main] prints the error, ends
    with status 1 and issues no query. *)
Theorem parse_table_path_three_segments :
  (∀ path,
     (∃ project dataset table, parse_table_path path = inr (project, dataset, table))
     ↔ length (split "." path) = 3)
  ∧ (∀ path, length (split "." path) = 3 ↔ count_char "." path = 2)
  ∧ (∀ path, three_nonempty_segments path →
       ∃ project dataset table,
         split "." path = [project; dataset; table]
         ∧ parse_table_path path = inr (project, dataset, table))
  ∧ (∀ connect fs a,
       length (split "." (arg_table1 a)) ≠ 3 ∨ length (split "." (arg_table2 a)) ≠ 3 →
       let r := main connect fs a 0 in
       exit_status r = 1%Z
       ∧ queries (log r) = []
       ∧ issued r = 0
       ∧ ∃ msg, log r = [Print (MInputError msg)]).
Proof.
  split; [apply parse_table_path_ok|]. split; [|split].
  - intros path. rewrite split_length. lia.
  - intros path (p & d & t & H & _). exists p, d, t. split; [done|].
    unfold parse_table_path. by rewrite H.
  - intros connect fs a Hbad. unfold main.
    destruct (decide (length (split "." (arg_table1 a)) = 3)) as [H1|H1].
    + destruct Hbad as [|H2]; [done|].
      apply parse_table_path_ok in H1 as (p & d & t & ->).
      rewrite (parse_table_path_error _ H2). cbn. eauto.
    + rewrite (parse_table_path_error _ H1). cbn. eauto.
Qed.

Lemma parse_table_path_three_segments_witness :
  let r := main (λ _, inl "no client is built") read_only_sink
             (Args "project.dataset" "p.d.t" None None None) 0 in
  exit_status r = 1%Z ∧ queries (log r) = [] ∧ issued r = 0
  ∧ ∃ msg, log r = [Print (MInputError msg)].
Proof.
  apply (proj2 (proj2 (proj2 parse_table_path_three_segments))).
  left. simpl. lia.
Defined.

(** ** Runs of the comparator *)

Lemma run_bind {A B} (m : M A) (f : A → M B) n o l n' o' l' n'' :
  m n = Run o l n' →
  match o with
  | Val a => f a n'
  | Raised e => Run (Raised e) [] n'
  | Exited s => Run (Exited s) [] n'
  end = Run o' l' n'' →
  (m ≫= f) n = Run o' (l ++ l') n''.
Proof.
  intros Hm Hf. unfold mbind, M_bind. rewrite Hm. simpl.
  destruct o; [by rewrite Hf|..]; injection Hf as <- <- <-; by rewrite app_nil_r.
Qed.

Lemma run_try_except {A} (body : M A) (h : string → M A) n o l n' o' l' n'' :
  body n = Run o l n' →
  match o with
  | Raised e => h e n'
  | _ => Run o [] n'
  end = Run o' l' n'' →
  try_except body h n = Run o' (l ++ l') n''.
Proof.
  intros Hb Hh. unfold try_except. rewrite Hb. simpl.
  destruct o; [| by rewrite Hh |]; injection Hh as <- <- <-; by rewrite app_nil_r.
Qed.

Lemma run_query_answer (cl : client) o q n r :
  cl n q = Answer r → query cl o q n = Run (Val r) [Query o q (Answer r)] (S n).
Proof. intros H. unfold query. by rewrite H. Qed.

Lemma run_query_failure (cl : client) o q n msg :
  cl n q = Failure msg →
  query cl o q n = Run (Raised msg) [Query o q (Failure msg)] (S n).
Proof. intros H. unfold query. by rewrite H. Qed.

Lemma run_when (b : bool) (m : message) n :
  when b (print m) n = Run (Val ()) (if b then [Print m] else []) n.
Proof. by destruct b. Qed.

(** One step of a run: the first computation of a sequence is run from the
    hypotheses on the client, then its continuation. *)
Ltac run_step :=
  lazymatch goal with
  | |- mbind _ _ _ = _ =>
      eapply run_bind; [solve [run_step] | cbv beta iota; run_step]
  | |- query _ _ _ _ = _ =>
      first [ eapply run_query_answer; eassumption
            | eapply run_query_failure; eassumption ]
  | |- when _ (print _) _ = _ => apply run_when
  | |- (if negb true then _ else _) _ = _ =>
      change (negb true) with false; cbv iota; run_step
  | |- (if negb false then _ else _) _ = _ =>
      change (negb false) with true; cbv iota; run_step
  | |- get_table_schema _ _ _ _ _ = _ => unfold get_table_schema; run_step
  | |- get_row_count _ _ _ _ = _ => unfold get_row_count; run_step
  | |- check_data_differences _ _ _ _ _ _ = _ =>
      unfold check_data_differences; run_step
  | |- _ => first [ eassumption | reflexivity | idtac ]
  end.

Lemma queries_app (l l' : list event) : queries (l ++ l') = queries l ++ queries l'.
Proof. unfold queries. induction l as [|e l IH]; [done|]. simpl. by rewrite IH, app_assoc. Qed.

Lemma verdicts_app (l l' : list event) : verdicts (l ++ l') = verdicts l ++ verdicts l'.
Proof. unfold verdicts. induction l as [|e l IH]; [done|]. simpl. by rewrite IH, app_assoc. Qed.

Lemma queries_when (b : bool) (m : message) : queries (if b then [Print m] else []) = [].
Proof. by destruct b. Qed.

Lemma verdicts_when (b : bool) (m : message) :
  m ≠ MPass → m ≠ MFail → verdicts (if b then [Print m] else []) = [].
Proof. intros H1 H2. destruct b; [|done]. by destruct m. Qed.

Lemma responses_app (l l' : list event) : responses (l ++ l') = responses l ++ responses l'.
Proof. apply flat_map_app. Qed.

Lemma errors_app (l l' : list event) : errors (l ++ l') = errors l ++ errors l'.
Proof. apply flat_map_app. Qed.

Lemma writes_app (l l' : list event) : writes (l ++ l') = writes l ++ writes l'.
Proof. apply flat_map_app. Qed.

Lemma responses_when (b : bool) (m : message) :
  responses (if b then [Print m] else []) = [].
Proof. by destruct b. Qed.

Lemma writes_when (b : bool) (m : message) :
  writes (if b then [Print m] else []) = [].
Proof. by destruct b. Qed.

Lemma errors_when (b : bool) (m : message) :
  (∀ e, m ≠ MComparisonError e) → errors (if b then [Print m] else []) = [].
Proof. intros H. destruct b; [|done]. destruct m; try done. by destruct (H msg). Qed.

Lemma responses_length (l : list event) : length (responses l) = length (queries l).
Proof.
  induction l as [|e l IH]; [done|].
  change (e :: l) with ([e] ++ l). rewrite responses_app, queries_app, !length_app, IH.
  by destruct e.
Qed.

(** ** The sink *)

Lemma queries_sink_events ws : queries (sink_events ws) = [].
Proof. induction ws as [|w ws IH]; [done|exact IH]. Qed.

Lemma responses_sink_events ws : responses (sink_events ws) = [].
Proof. induction ws as [|w ws IH]; [done|exact IH]. Qed.

Lemma verdicts_sink_events ws : verdicts (sink_events ws) = [].
Proof. induction ws as [|w ws IH]; [done|exact IH]. Qed.

Lemma errors_sink_events ws : errors (sink_events ws) = [].
Proof. induction ws as [|w ws IH]; [done|exact IH]. Qed.

Lemma writes_sink_events ws : writes (sink_events ws) = ws.
Proof.
  induction ws as [|[o f] ws IH]; [done|].
  change (writes (sink_events ((o, f) :: ws))) with ((o, f) :: writes (sink_events ws)).
  by rewrite IH.
Qed.

Lemma sink_events_app ws ws' :
  sink_events (ws ++ ws') = sink_events ws ++ sink_events ws'.
Proof. apply map_app. Qed.

Lemma unknown_keys_nil (fieldnames : list string) (r : row) :
  unknown_keys fieldnames r = [] ↔ r.*1 ⊆ fieldnames.
Proof.
  unfold unknown_keys. induction (r.*1) as [|k ks IH].
  - split; [|done]. by intros _ x ?%elem_of_nil.
  - rewrite filter_cons. destruct (decide (k ∉ fieldnames)) as [Hk|Hk].
    + split; [done|]. intros H. destruct Hk. apply H, elem_of_cons. by left.
    + rewrite IH. apply dec_stable in Hk. split.
      * intros H x [->|Hx]%elem_of_cons; [done|by apply H].
      * intros H x Hx. apply H, elem_of_cons. by right.
Qed.

Lemma run_sink_do (fs : sink) (o : sink_op) (n : nat) :
  sink_do fs o n
  = Run (match sink_io fs o with None => Val () | Some msg => Raised msg end)
      (sink_events [(o, sink_io fs o)]) n.
Proof. unfold sink_do. by destruct (sink_io fs o). Qed.

(** The rows are written in turn until one is refused. *)
Lemma write_rows_spec (fs : sink) (file : string) (fieldnames : list string)
    (rows : list row) (index n : nat) :
  ∃ o ws,
    write_rows fs file fieldnames index rows n = Run o (sink_events ws) n
    ∧ Forall (λ w, sink_file w.1 = file) ws
    ∧ match o with
      | Val _ =>
          ws = row_writes file index rows
          ∧ Forall (λ r : row, r.*1 ⊆ fieldnames) rows
      | Raised _ =>
          ¬ ((∀ op, sink_io fs op = None)
             ∧ Forall (λ r : row, r.*1 ⊆ fieldnames) rows)
      | Exited _ => False
      end.
Proof.
  revert index. induction rows as [|r rows IH]; intros index.
  - exists (Val ()), []. by repeat split.
  - cbn [write_rows]. destruct (unknown_keys fieldnames r) as [|k ks] eqn:E.
    + unfold mbind, M_bind. rewrite run_sink_do. cbn [out log issued].
      destruct (sink_io fs (SRow file index r)) as [msg|] eqn:Eio.
      * exists (Raised msg), [(SRow file index r, Some msg)].
        split; [done|]. split; [by repeat constructor|].
        intros [Hio _]. by rewrite Hio in Eio.
      * destruct (IH (S index)) as (o & ws & -> & Hfile & Ho).
        cbn [out log issued]. exists o, ((SRow file index r, None) :: ws).
        split; [done|]. split; [by constructor|].
        apply unknown_keys_nil in E.
        destruct o as [[]|e|s]; [|intros [Hio [_ Hrows]%Forall_cons]|done].
        -- destruct Ho as [-> Hrows]. split; [reflexivity|by constructor].
        -- by destruct Ho.
    + exists (Raised (value_error fs (k :: ks))), [].
      split; [done|]. split; [constructor|].
      intros [_ [Hr%unknown_keys_nil _]%Forall_cons]. by rewrite Hr in E.
Qed.

(** A row with a key outside the header stops the export after the rows
    before it. *)
Lemma write_rows_stops (fs : sink) (file : string) (fieldnames : list string)
    (good : list row) (bad : row) (rest : list row) (index n : nat) :
  (∀ op, sink_io fs op = None) →
  Forall (λ r : row, r.*1 ⊆ fieldnames) good →
  ¬ bad.*1 ⊆ fieldnames →
  write_rows fs file fieldnames index (good ++ bad :: rest) n
  = Run (Raised (value_error fs (unknown_keys fieldnames bad)))
      (sink_events (row_writes file index good)) n.
Proof.
  intros Hio Hgood Hbad. revert index.
  induction Hgood as [|r good Hr Hgood IH]; intros index.
  - cbn [app write_rows].
    destruct (unknown_keys fieldnames bad) as [|k ks] eqn:E; [|done].
    by apply unknown_keys_nil in E.
  - cbn [app write_rows]. apply unknown_keys_nil in Hr. rewrite Hr.
    unfold mbind, M_bind. rewrite run_sink_do, Hio. cbn [out log issued].
    by rewrite IH.
Qed.

(** The export file: what [write_csv] does, and how it ends. *)
Lemma write_csv_spec (fs : sink) (file : string) (fieldnames : list string)
    (rows : list row) (n : nat) :
  ∃ o ws,
    write_csv fs file fieldnames rows n = Run o (sink_events ws) n
    ∧ Forall (λ w, sink_file w.1 = file) ws
    ∧ head ws = Some (SOpen file, sink_io fs (SOpen file))
    ∧ match o with
      | Val _ =>
          ws = written_file file fieldnames rows
          ∧ Forall (λ r : row, r.*1 ⊆ fieldnames) rows
      | Raised _ =>
          ¬ ((∀ op, sink_io fs op = None)
             ∧ Forall (λ r : row, r.*1 ⊆ fieldnames) rows)
      | Exited _ => False
      end.
Proof.
  unfold write_csv, with_open.
  destruct (sink_io fs (SOpen file)) as [msg|] eqn:Eopen.
  { exists (Raised msg), [(SOpen file, Some msg)].
    split; [done|]. split; [by repeat constructor|]. split; [done|].
    intros [Hio _]. by rewrite Hio in Eopen. }
  unfold mbind, M_bind. rewrite run_sink_do. cbn [out log issued].
  destruct (sink_io fs (SHeader file fieldnames)) as [msg|] eqn:Eheader.
  { cbn [out log issued].
    destruct (sink_io fs (SClose file)) as [msg'|] eqn:Eclose.
    - exists (Raised msg'),
        [(SOpen file, None); (SHeader file fieldnames, Some msg);
         (SClose file, Some msg')].
      split; [done|]. split; [by repeat constructor|]. split; [done|].
      intros [Hio _]. by rewrite Hio in Eheader.
    - exists (Raised msg),
        [(SOpen file, None); (SHeader file fieldnames, Some msg);
         (SClose file, None)].
      split; [done|]. split; [by repeat constructor|]. split; [done|].
      intros [Hio _]. by rewrite Hio in Eheader. }
  destruct (write_rows_spec fs file fieldnames rows 0 n) as (o & ws & -> & Hfile & Ho).
  cbn [out log issued].
  destruct (sink_io fs (SClose file)) as [msg'|] eqn:Eclose.
  - exists (Raised msg'),
      ((SOpen file, None) :: (SHeader file fieldnames, None)
       :: ws ++ [(SClose file, Some msg')]).
    split; [unfold sink_events; cbn [map]; rewrite map_app; reflexivity|].
    split; [repeat constructor; apply Forall_app; by repeat constructor|].
    split; [done|]. intros [Hio _]. by rewrite Hio in Eclose.
  - exists o,
      ((SOpen file, None) :: (SHeader file fieldnames, None)
       :: ws ++ [(SClose file, None)]).
    split; [unfold sink_events; cbn [map]; rewrite map_app; reflexivity|].
    split; [repeat constructor; apply Forall_app; by repeat constructor|].
    split; [done|].
    destruct o as [[]|e|s]; [|done..].
    destruct Ho as [-> Hrows]. by split.
Qed.

Lemma write_csv_ok (fs : sink) (file : string) (fieldnames : list string)
    (rows : list row) (n : nat) :
  (∀ op, sink_io fs op = None) →
  Forall (λ r : row, r.*1 ⊆ fieldnames) rows →
  write_csv fs file fieldnames rows n
  = Run (Val ()) (sink_events (written_file file fieldnames rows)) n.
Proof.
  intros Hio Hrows.
  destruct (write_csv_spec fs file fieldnames rows n) as (o & ws & -> & _ & _ & Ho).
  destruct o as [[]|e|s]; [by destruct Ho as [-> _]|by destruct Ho|done].
Qed.

Lemma write_csv_open_fails (fs : sink) (file : string) (fieldnames : list string)
    (rows : list row) (n : nat) (msg : string) :
  sink_io fs (SOpen file) = Some msg →
  write_csv fs file fieldnames rows n
  = Run (Raised msg) [Write (SOpen file) (Some msg)] n.
Proof. intros H. unfold write_csv, with_open. by rewrite H. Qed.

Lemma write_csv_stops (fs : sink) (file : string) (fieldnames : list string)
    (good : list row) (bad : row) (rest : list row) (n : nat) :
  (∀ op, sink_io fs op = None) →
  Forall (λ r : row, r.*1 ⊆ fieldnames) good →
  ¬ bad.*1 ⊆ fieldnames →
  write_csv fs file fieldnames (good ++ bad :: rest) n
  = Run (Raised (value_error fs (unknown_keys fieldnames bad)))
      (sink_events ((SOpen file, None) :: (SHeader file fieldnames, None)
                    :: row_writes file 0 good ++ [(SClose file, None)])) n.
Proof.
  intros Hio Hgood Hbad. unfold write_csv, with_open. rewrite !Hio.
  unfold mbind, M_bind. rewrite run_sink_do, Hio. cbn [out log issued].
  rewrite (write_rows_stops fs file fieldnames good bad rest 0 n Hio Hgood Hbad).
  cbn [out log issued]. unfold sink_events. cbn [map]. by rewrite map_app.
Qed.

Ltac log_simpl :=
  rewrite ?queries_app, ?responses_app, ?errors_app, ?verdicts_app, ?writes_app,
    ?queries_when, ?responses_when, ?writes_when, ?verdicts_when, ?errors_when,
    ?queries_sink_events, ?responses_sink_events, ?errors_sink_events,
    ?verdicts_sink_events, ?writes_sink_events
    by done;
  cbn [queries responses errors verdicts writes flat_map app length map fst].

Section execute_comparison_runs.

Context (cl : client) (fs : sink).
Context (table1_full table2_full : string).
Context (table1_project table1_dataset table1_name : string).
Context (table2_project table2_dataset table2_name : string).
Context (where_clause order_by_clause specific_columns : option string).

Local Abbreviation the_run :=
  (execute_comparison cl fs table1_full table2_full
     table1_project table1_dataset table1_name
     table2_project table2_dataset table2_name
     where_clause order_by_clause specific_columns 0).
Local Abbreviation wc := (normalize_where_clause where_clause).
Local Abbreviation oc := (normalize_order_by_clause order_by_clause).
Local Abbreviation sample1 columns :=
  (sample_query table1_full table2_full columns wc oc).
Local Abbreviation sample2 columns :=
  (sample_query table2_full table1_full columns wc oc).
Local Abbreviation export columns :=
  (export_query table1_full table2_full table1_name table2_name columns wc oc).

(** C8.  When both schemas are fetched and no column is common, the run
    issues the two schema queries and nothing else, prints the "no common
    columns" message last, prints neither verdict, and returns normally:
    the process does not exit with an error status. *)
Theorem execute_comparison_no_common_columns
    (schema1 schema2 : list (string * string)) :
  cl 0 (schema_query table1_project table1_dataset table1_name)
    = Answer (SchemaRows schema1) →
  cl 1 (schema_query table2_project table2_dataset table2_name)
    = Answer (SchemaRows schema2) →
  common_columns (analyze_schemas schema1 schema2 specific_columns) = ∅ →
  out the_run = Val ()
  ∧ exit_status the_run = 0%Z
  ∧ queries (log the_run)
    = [(OpSchema, schema_query table1_project table1_dataset table1_name);
       (OpSchema, schema_query table2_project table2_dataset table2_name)]
  ∧ (∀ o q, (o, q) ∈ queries (log the_run) → is_data_op o = false)
  ∧ last (log the_run) = Some (Print MNoCommonColumns)
  ∧ verdicts (log the_run) = [].
Proof.
  intros H1 H2 Hc.
  assert (∃ l, the_run = Run (Val ()) l 2
               ∧ queries l
                 = [(OpSchema, schema_query table1_project table1_dataset table1_name);
                    (OpSchema, schema_query table2_project table2_dataset table2_name)]
               ∧ last l = Some (Print MNoCommonColumns)
               ∧ verdicts l = []) as (l & -> & Hq & Hl & Hv).
  { eexists. split.
    - unfold execute_comparison. cbv zeta.
      eapply run_try_except.
      + run_step. rewrite Hc.
        change (nonempty ∅) with false. run_step.
      + reflexivity.
    - rewrite !app_nil_r.
      split; [|split].
      + rewrite !queries_app, !queries_when. reflexivity.
      + rewrite !app_assoc. apply last_snoc.
      + rewrite !verdicts_app, !verdicts_when by done. reflexivity. }
  simpl. split; [done|]. split; [done|]. split; [done|]. split; [|done].
  rewrite Hq. intros o q [[= -> ->]|[[= -> ->]|[]%elem_of_nil]%elem_of_cons]%elem_of_cons; done.
Qed.


(** The two sample queries are issued in turn; the rows are read once both
    are answered. *)
Lemma get_sample_differences_run (columns : string) (n : nat) :
  ∃ o l n',
    get_sample_differences cl table1_full table2_full columns wc oc 10 n
    = Run o l n'
    ∧ verdicts l = []
    ∧ writes l = []
    ∧ match o with
      | Val (rows1, rows2) =>
          n' = S (S n)
          ∧ queries l = [sample1 columns; sample2 columns]
          ∧ cl n (sample1 columns).2 = Answer (DataRows rows1)
          ∧ cl (S n) (sample2 columns).2 = Answer (DataRows rows2)
      | Raised _ =>
          (queries l = [sample1 columns]
           ∨ queries l = [sample1 columns; sample2 columns])
          ∧ ¬ ∃ rows1 rows2,
                cl n (sample1 columns).2 = Answer (DataRows rows1)
                ∧ cl (S n) (sample2 columns).2 = Answer (DataRows rows2)
      | Exited _ => False
      end.
Proof.
  unfold sample_query. simpl snd.
  destruct (cl n (build_except_distinct_query table1_full table2_full columns
                    wc oc (Some 10%Z) None)) as [r1|e1] eqn:H1;
    [destruct (cl (S n) (build_except_distinct_query table2_full table1_full columns
                    wc oc (Some 10%Z) None)) as [r2|e2] eqn:H2;
       [destruct r1, r2|]|];
    eexists _, _, _;
    (split; [unfold get_sample_differences, data_rows; cbv zeta; run_step|]);
    (split; [reflexivity|]); (split; [reflexivity|]); simpl;
    try (split; [by eauto|]; by intros (? & ? & ? & ?)).
  by repeat split.
Qed.

(** The export issues the one union query; when it returns, every row of
    the answer is in the file. *)
Lemma export_all_differences_run (columns output_file : string) (n : nat) :
  ∃ o l n',
    export_all_differences cl fs table1_full table2_full table1_name table2_name
      columns output_file wc oc n = Run o l n'
    ∧ verdicts l = []
    ∧ queries l = [export columns]
    ∧ match o with
      | Val _ =>
          ∃ rows, cl n (export columns).2 = Answer (DataRows rows)
            ∧ writes l = match rows with
                         | [] => []
                         | first :: _ => written_file output_file first.*1 rows
                         end
      | Raised _ =>
          (¬ ∃ rows, cl n (export columns).2 = Answer (DataRows rows))
          ∨ ∃ first rest,
              cl n (export columns).2 = Answer (DataRows (first :: rest))
              ∧ ¬ ((∀ op, sink_io fs op = None)
                   ∧ Forall (λ r : row, r.*1 ⊆ first.*1) rest)
      | Exited _ => False
      end.
Proof.
  unfold export_query. simpl snd.
  destruct (cl n (build_union_query
     [build_except_distinct_query table1_full table2_full columns wc None None
        (Some ("exclusive_to_" +:+ table1_name));
      build_except_distinct_query table2_full table1_full columns wc None None
        (Some ("exclusive_to_" +:+ table2_name))] oc)) as [[| | |[|first rows]]|e] eqn:H;
    [| | | |destruct (write_csv_spec fs output_file first.*1 (first :: rows) (S n))
              as (ow & ws & Hw & _ & _ & Hspec);
            destruct ow as [[]|e|s]; [| |done]|];
    eexists _, _, _;
    (split; [unfold export_all_differences, data_rows; cbv zeta; run_step|]);
    (split; [by log_simpl|]); (split; [by log_simpl|]); cbn beta iota.
  - left. by intros (? & ?).
  - left. by intros (? & ?).
  - left. by intros (? & ?).
  - by exists [].
  - exists (first :: rows). split; [done|]. log_simpl.
    rewrite app_nil_r. by destruct Hspec as [-> _].
  - right. exists first, rows. split; [done|]. intros [Hio Hrest].
    apply Hspec. split; [done|]. by constructor.
  - left. by intros (? & ?).
Qed.


Lemma nonempty_true (X : gset string) : X ≠ ∅ → nonempty X = true.
Proof. intros H. unfold nonempty. by rewrite bool_decide_eq_false_2. Qed.


End execute_comparison_runs.

Lemma execute_comparison_no_common_columns_witness :
  let r := execute_comparison disjoint_client accepting_sink "p.d.t1" "p.d.t2"
             "p" "d" "t1" "p" "d" "t2" None None None 0 in
  out r = Val () ∧ exit_status r = 0%Z ∧ verdicts (log r) = []
  ∧ last (log r) = Some (Print MNoCommonColumns).
Proof.
  intros r.
  destruct (execute_comparison_no_common_columns disjoint_client accepting_sink
              "p.d.t1" "p.d.t2"
              "p" "d" "t1" "p" "d" "t2" None None None
              [("a", "INT")] [("b", "INT")] eq_refl eq_refl)
    as (Ho & Hs & _ & _ & Hl & Hv).
  - by vm_compute.
  - by repeat split.
Defined.


(** * Further properties of the code *)

(** ** Clause normalisation *)

(** X1.  Whatever the fragment, a clause that comes out of normalisation
    starts with its keyword, in some casing; and nothing comes out exactly
    when the fragment is [None] or the empty string. *)
Theorem normalize_clause_starts_with_keyword :
  (∀ F r, normalize_where_clause F = Some r →
     startswith (lower r) "where" = true)
  ∧ (∀ F r, normalize_order_by_clause F = Some r →
     startswith (lower r) "order by" = true)
  ∧ (∀ F, normalize_where_clause F = None ↔ F = None ∨ F = Some "")
  ∧ (∀ F, normalize_order_by_clause F = None ↔ F = None ∨ F = Some "").
Proof.
  split; [|split; [|split]].
  - intros F r. unfold normalize_where_clause.
    destruct (truthy_str F); [|done].
    destruct (startswith (lower (strip (text_of F))) "where") eqn:Hp; simpl;
      intros [= <-]; [done|reflexivity].
  - intros F r. unfold normalize_order_by_clause.
    destruct (truthy_str F); [|done].
    destruct (startswith (lower (strip (text_of F))) "order by") eqn:Hp; simpl;
      intros [= <-]; [done|reflexivity].
  - intros [s|]; [|by split; [left|]].
    unfold normalize_where_clause. simpl truthy_str.
    destruct (String.eqb_spec s "") as [->|Hs]; simpl.
    + split; [by right|done].
    + split; [by destruct (startswith _ _)|]. by intros [|[= ->]].
  - intros [s|]; [|by split; [left|]].
    unfold normalize_order_by_clause. simpl truthy_str.
    destruct (String.eqb_spec s "") as [->|Hs]; simpl.
    + split; [by right|done].
    + split; [by destruct (startswith _ _)|]. by intros [|[= ->]].
Qed.

Lemma normalize_clause_starts_with_keyword_witness :
  startswith (lower "where x > 1") "where" = true
  ∧ startswith (lower "ORDER BY a") "order by" = true.
Proof.
  split.
  - exact (proj1 normalize_clause_starts_with_keyword
             (Some " x > 1") "where x > 1" eq_refl).
  - exact (proj1 (proj2 normalize_clause_starts_with_keyword)
             (Some "ORDER BY a ") "ORDER BY a" eq_refl).
Defined.

Lemma normalize_order_by_clause_stripped (F : string) :
  F ≠ "" →
  normalize_order_by_clause (Some F) =
    Some (if startswith (lower (strip F)) "order by" then strip F
          else "order by " +:+ strip F).
Proof.
  intros HF%truthy_str_Some. unfold normalize_order_by_clause. rewrite HF.
  simpl text_of. by destruct (startswith _ _).
Qed.

(** X2.  For a fragment that is not made of whitespace only, both
    normalisations are idempotent, and what they return has no whitespace
    at either end. *)
Theorem normalize_clause_idempotent_nonblank (s : string) :
  strip s ≠ "" →
  normalize_where_clause (normalize_where_clause (Some s))
    = normalize_where_clause (Some s)
  ∧ normalize_order_by_clause (normalize_order_by_clause (Some s))
    = normalize_order_by_clause (Some s)
  ∧ (∀ r, normalize_where_clause (Some s) = Some r → strip r = r)
  ∧ (∀ r, normalize_order_by_clause (Some s) = Some r → strip r = r).
Proof.
  intros Hnb. assert (s ≠ "") as Hs by (by intros ->).
  assert (∀ kw : string, (∃ c t, kw = String c t ∧ isspace c = false) →
            strip (kw +:+ strip s) = kw +:+ strip s) as Hkw.
  { intros kw (c & t & -> & Hc). unfold strip at 1.
    rewrite append_cons, lstrip_nonspace by done. rewrite <- append_cons.
    rewrite rstrip_app; unfold strip; rewrite rstrip_idem; [done|apply Hnb]. }
  assert (strip ("where " +:+ strip s) = "where " +:+ strip s) as Hw
    by (apply Hkw; by eexists _, _).
  assert (strip ("order by " +:+ strip s) = "order by " +:+ strip s) as Ho
    by (apply Hkw; by eexists _, _).
  split; [|split; [|split]].
  - apply normalize_where_clause_idempotent_nonblank. by intros ? [= <-] _.
  - rewrite (normalize_order_by_clause_stripped s Hs).
    destruct (startswith (lower (strip s)) "order by") eqn:Hp.
    + rewrite (normalize_order_by_clause_stripped _ Hnb), strip_idem. by rewrite Hp.
    + rewrite normalize_order_by_clause_stripped; [|done]. by rewrite Ho.
  - intros r. rewrite (normalize_where_clause_stripped s Hs).
    destruct (startswith _ _); intros [= <-]; [apply strip_idem|done].
  - intros r. rewrite (normalize_order_by_clause_stripped s Hs).
    destruct (startswith _ _); intros [= <-]; [apply strip_idem|done].
Qed.

Lemma normalize_clause_idempotent_nonblank_witness :
  normalize_where_clause (normalize_where_clause (Some " x > 1 "))
  = normalize_where_clause (Some " x > 1 ").
Proof.
  apply (normalize_clause_idempotent_nonblank " x > 1 "). discriminate.
Defined.

(** ** Relation paths *)

Lemma split_nonempty (sep : ascii) (s : string) : split sep s ≠ [].
Proof.
  intros H. apply (f_equal length) in H. by rewrite split_length in H.
Qed.

Lemma split_join (sep : ascii) (s : string) :
  join (String sep "") (split sep s) = s.
Proof.
  induction s as [|c s IH]; [done|]. cbn -[Ascii.eqb join].
  destruct (Ascii.eqb_spec c sep) as [->|Hc].
  - destruct (split sep s) as [|p ps] eqn:E; [by destruct (split_nonempty sep s)|].
    rewrite join_cons. by rewrite IH.
  - destruct (split sep s) as [|p ps] eqn:E; [by destruct (split_nonempty sep s)|].
    destruct ps as [|p' ps].
    + simpl in IH |- *. by rewrite IH.
    + rewrite join_cons in IH |- *. rewrite append_cons. by rewrite IH.
Qed.

Lemma split_pieces (sep : ascii) (s p : string) :
  p ∈ split sep s → count_char sep p = 0.
Proof.
  revert p. induction s as [|c s IH]; intros p.
  - simpl. by intros ->%list_elem_of_singleton.
  - cbn -[Ascii.eqb]. destruct (Ascii.eqb_spec c sep) as [->|Hc].
    + intros [->|Hp]%elem_of_cons; [done|]. by apply IH.
    + destruct (split sep s) as [|q qs] eqn:E; [by destruct (split_nonempty sep s)|].
      intros [->|Hp]%elem_of_cons.
      * cbn -[Ascii.eqb]. destruct (Ascii.eqb_spec c sep) as [->|_]; [done|].
        apply IH. apply elem_of_cons. by left.
      * apply IH. apply elem_of_cons. by right.
Qed.

Lemma split_single (sep : ascii) (p : string) :
  count_char sep p = 0 → split sep p = [p].
Proof.
  induction p as [|c p IH]; [done|]. cbn -[Ascii.eqb].
  destruct (Ascii.eqb c sep); [done|]. intros H. by rewrite (IH H).
Qed.

Lemma split_app_sep (sep : ascii) (p s : string) :
  count_char sep p = 0 → split sep (p +:+ String sep s) = p :: split sep s.
Proof.
  induction p as [|c p IH].
  - intros _. change ("" +:+ String sep s) with (String sep s).
    cbn -[Ascii.eqb]. by rewrite Ascii.eqb_refl.
  - rewrite append_cons. cbn -[Ascii.eqb].
    destruct (Ascii.eqb c sep); [done|]. intros H. by rewrite (IH H).
Qed.

(** X3.  Parsing and writing a relation path are inverse to each other: the
    three segments parsing returns are free of dots and, joined by dots,
    give the path back; and three dot-free segments joined by dots parse to
    themselves. *)
Theorem parse_table_path_round_trip :
  (∀ path project dataset table,
     parse_table_path path = inr (project, dataset, table) →
     path = project +:+ "." +:+ dataset +:+ "." +:+ table
     ∧ count_char "." project = 0
     ∧ count_char "." dataset = 0
     ∧ count_char "." table = 0)
  ∧ (∀ project dataset table,
     count_char "." project = 0 → count_char "." dataset = 0 →
     count_char "." table = 0 →
     parse_table_path (project +:+ "." +:+ dataset +:+ "." +:+ table)
     = inr (project, dataset, table)).
Proof.
  split.
  - intros path p d t. unfold parse_table_path.
    destruct (split "." path) as [|a [|b [|c [|x l]]]] eqn:E; try done.
    intros [= <- <- <-].
    pose proof (split_join "." path) as Hj. rewrite E in Hj.
    split; [by rewrite <- Hj|].
    repeat split; apply (split_pieces "." path); rewrite E;
      repeat (apply elem_of_cons; (by left) || right); by apply elem_of_cons; left.
  - intros p d t Hp Hd Ht. unfold parse_table_path.
    change ("." +:+ d +:+ "." +:+ t) with (String "." (d +:+ "." +:+ t)).
    rewrite (split_app_sep "." p _ Hp).
    change ("." +:+ t) with (String "." t).
    rewrite (split_app_sep "." d _ Hd). by rewrite (split_single "." t Ht).
Qed.

Lemma parse_table_path_round_trip_witness :
  parse_table_path ("proj" +:+ "." +:+ "data" +:+ "." +:+ "tab")
  = inr ("proj", "data", "tab")
  ∧ "a.b.c" = "a" +:+ "." +:+ "b" +:+ "." +:+ "c".
Proof.
  split.
  - by apply (proj2 parse_table_path_round_trip).
  - exact (proj1 (proj1 parse_table_path_round_trip "a.b.c" "a" "b" "c" eq_refl)).
Defined.

(** ** Schema reconciliation, further *)

(** X4.  The type the analysis looks up for a column is one the schema
    lists for it: a column has a type in the dictionary exactly when the
    schema names it; the type is that of the last pair that names the
    column, so when the schema names a column more than once the last pair
    wins over every earlier one; when it names every column once, the
    dictionary holds exactly the pairs of the schema. *)
Theorem dict_of_schema (l : list (string * string)) :
  (∀ k, is_Some (dict l !! k) ↔ k ∈ l.*1)
  ∧ (∀ k t, dict l !! k = Some t → (k, t) ∈ l)
  ∧ (∀ k t, dict l !! k = Some t ↔
       ∃ before after, l = before ++ (k, t) :: after ∧ k ∉ after.*1)
  ∧ (∀ before after k t t',
       l = before ++ (k, t) :: after → k ∉ after.*1 →
       (k, t') ∈ before → dict l !! k = Some t)
  ∧ (NoDup l.*1 → ∀ k t, dict l !! k = Some t ↔ (k, t) ∈ l).
Proof.
  split; [apply dict_lookup_is_Some|]. split; [apply dict_lookup_elem|].
  split; [apply dict_lookup_declares|]. split.
  - intros before after k t t' E Hk _. apply dict_lookup_declares.
    by exists before, after.
  - intros Hnd k t. split; [apply dict_lookup_elem|by apply dict_lookup_NoDup].
Qed.

Lemma dict_of_schema_witness :
  dict [("a", "INT"); ("b", "X"); ("a", "STRING")] !! "a" = Some "STRING"
  ∧ (dict [("a", "INT"); ("b", "STRING")] !! "b" = Some "STRING"
     ↔ ("b", "STRING") ∈ [("a", "INT"); ("b", "STRING")]).
Proof.
  split.
  - apply (proj1 (proj2 (proj2 (proj2
             (dict_of_schema [("a", "INT"); ("b", "X"); ("a", "STRING")]))))
             [("a", "INT"); ("b", "X")] [] "a" "STRING" "INT" eq_refl).
    + by intros ?%elem_of_nil.
    + apply elem_of_cons. by left.
  - apply (proj2 (proj2 (proj2 (proj2
             (dict_of_schema [("a", "INT"); ("b", "STRING")]))))).
    apply (bool_decide_unpack _). by vm_compute.
Defined.

(** X5.  The column sets of the analysis, in terms of the names the two
    schemas list.  A name is "only in table 1" exactly when the first schema
    lists it and the second does not, whatever subset is requested; a common
    column is always listed by both schemas; with no subset in effect the
    common columns are all the names both schemas list, nothing is missing,
    and every name of the first schema is either common or only in table 1,
    never both. *)
Theorem analyze_schemas_column_sets
    (schema1 schema2 : list (string * string)) (specific_columns : option string) :
  let r := analyze_schemas schema1 schema2 specific_columns in
  (∀ x, x ∈ only_in_table1 r ↔ x ∈ schema1.*1 ∧ x ∉ schema2.*1)
  ∧ (∀ x, x ∈ only_in_table2 r ↔ x ∈ schema2.*1 ∧ x ∉ schema1.*1)
  ∧ (∀ x, x ∈ common_columns r → x ∈ schema1.*1 ∧ x ∈ schema2.*1)
  ∧ (∀ x, x ∈ common_columns r →
       (x ∉ only_in_table1 r) ∧ (x ∉ only_in_table2 r))
  ∧ (truthy_str specific_columns = false →
       (∀ x, x ∈ common_columns r ↔ x ∈ schema1.*1 ∧ x ∈ schema2.*1)
       ∧ missing_specified_cols r = ∅
       ∧ (∀ x, x ∈ schema1.*1 ↔ x ∈ common_columns r ∨ x ∈ only_in_table1 r)
       ∧ (∀ x, x ∈ schema2.*1 ↔ x ∈ common_columns r ∨ x ∈ only_in_table2 r)).
Proof.
  intros r.
  destruct (analyze_schemas_fields schema1 schema2 specific_columns)
    as (Hc & Hm & H1 & H2 & _).
  fold r in Hc, Hm, H1, H2. rewrite Hc, H1, H2. clear Hc H1 H2.
  assert (∀ x (l : list (string * string)),
            x ∈ (list_to_set (l.*1) : gset string) ↔ x ∈ l.*1) as Hset
    by (intros; apply elem_of_list_to_set).
  split; [|split; [|split; [|split]]].
  - intros x. by rewrite elem_of_difference, !Hset.
  - intros x. by rewrite elem_of_difference, !Hset.
  - intros x. destruct (truthy_str specific_columns);
      rewrite !elem_of_intersection, !Hset; tauto.
  - intros x. rewrite !elem_of_difference, !Hset.
    destruct (truthy_str specific_columns);
      rewrite !elem_of_intersection, !Hset; tauto.
  - intros Ht. rewrite Hm, Ht. split; [|split; [done|split]].
    + intros x. by rewrite elem_of_intersection, !Hset.
    + intros x. rewrite elem_of_intersection, elem_of_difference, !Hset.
      destruct (decide (x ∈ schema2.*1)); tauto.
    + intros x. rewrite elem_of_intersection, elem_of_difference, !Hset.
      destruct (decide (x ∈ schema1.*1)); tauto.
Qed.

Lemma analyze_schemas_column_sets_witness :
  let r := analyze_schemas [("a", "INT"); ("b", "STRING")]
             [("a", "INT"); ("c", "BOOL")] None in
  missing_specified_cols r = ∅
  ∧ ("b" ∈ [("a", "INT"); ("b", "STRING")].*1
     ↔ "b" ∈ common_columns r ∨ "b" ∈ only_in_table1 r).
Proof.
  intros r.
  destruct (proj2 (proj2 (proj2 (proj2 (analyze_schemas_column_sets
              [("a", "INT"); ("b", "STRING")] [("a", "INT"); ("c", "BOOL")] None))))
              eq_refl) as (_ & Hm & H1 & _).
  split; [exact Hm|exact (H1 "b")].
Defined.

(** X6.  With a column subset in effect, the specified names (the pieces
    between commas, stripped) split into the common columns and the missing
    ones: a specified name is common exactly when both schemas list it and
    missing otherwise, never both; and nothing else is common or missing. *)
Theorem analyze_schemas_subset_split
    (schema1 schema2 : list (string * string)) (sc : string) :
  sc ≠ "" →
  let r := analyze_schemas schema1 schema2 (Some sc) in
  let specified := map strip (split "," sc) in
  (∀ x, x ∈ common_columns r ↔
        x ∈ specified ∧ x ∈ schema1.*1 ∧ x ∈ schema2.*1)
  ∧ (∀ x, x ∈ missing_specified_cols r ↔
          x ∈ specified ∧ ¬ (x ∈ schema1.*1 ∧ x ∈ schema2.*1))
  ∧ (∀ x, x ∈ specified ↔ x ∈ common_columns r ∨ x ∈ missing_specified_cols r)
  ∧ (∀ x, x ∈ common_columns r → x ∉ missing_specified_cols r).
Proof.
  intros Hsc r specified.
  destruct (analyze_schemas_specified schema1 schema2 sc Hsc) as (Hc & Hm & _).
  fold r in Hc, Hm. rewrite Hm, Hc. clear Hc Hm.
  assert (∀ x (l : list string),
            x ∈ (list_to_set l : gset string) ↔ x ∈ l) as Hset
    by (intros; apply elem_of_list_to_set).
  fold specified.
  split; [|split; [|split]]; intros x;
    rewrite ?elem_of_difference, ?elem_of_intersection, ?Hset; [tauto|tauto| |tauto].
  destruct (decide (x ∈ schema1.*1)), (decide (x ∈ schema2.*1)); tauto.
Qed.

Lemma analyze_schemas_subset_split_witness :
  let r := analyze_schemas [("a", "INT"); ("b", "STRING")]
             [("a", "INT"); ("c", "BOOL")] (Some "a, b") in
  "b" ∈ missing_specified_cols r ↔
  "b" ∈ map strip (split "," "a, b")
  ∧ ¬ ("b" ∈ [("a", "INT"); ("b", "STRING")].*1
       ∧ "b" ∈ [("a", "INT"); ("c", "BOOL")].*1).
Proof.
  intros r.
  refine (proj1 (proj2 (analyze_schemas_subset_split
            [("a", "INT"); ("b", "STRING")] [("a", "INT"); ("c", "BOOL")] "a, b" _))
            "b").
  discriminate.
Defined.

Lemma NoDup_flat_map_keyed {A C} (g : C → A) (f : A → list C) (l : list A) :
  NoDup l →
  (∀ x y, y ∈ f x → g y = x) →
  (∀ x, NoDup (f x)) →
  NoDup (flat_map f l).
Proof.
  intros Hnd Hg Hf. induction Hnd as [|x l Hx Hnd IH]; [constructor|].
  simpl. apply NoDup_app. split; [apply Hf|]. split; [|done].
  intros y Hy (z & Hz & Hy')%elem_of_flat_map.
  apply Hg in Hy, Hy'. congruence.
Qed.

(** X7.  The mismatch list is exact: it holds the triple (column, type in
    the first schema, type in the second) for the common columns whose two
    types differ and for no other; every common column has a type on both
    sides, so none is skipped; and no triple appears twice. *)
Theorem schema_mismatches_exact
    (schema1 schema2 : list (string * string)) (specific_columns : option string) :
  let r := analyze_schemas schema1 schema2 specific_columns in
  (∀ col type1 type2,
     (col, type1, type2) ∈ schema_mismatches r ↔
     col ∈ common_columns r
     ∧ dict schema1 !! col = Some type1
     ∧ dict schema2 !! col = Some type2
     ∧ type1 ≠ type2)
  ∧ (∀ col, col ∈ common_columns r →
       is_Some (dict schema1 !! col) ∧ is_Some (dict schema2 !! col))
  ∧ NoDup (schema_mismatches r).
Proof.
  intros r.
  destruct (analyze_schemas_fields schema1 schema2 specific_columns)
    as (_ & _ & _ & _ & Hmis). fold r in Hmis.
  split; [|split].
  - intros col type1 type2. rewrite Hmis, elem_of_flat_map. split.
    + intros (x & Hx%elem_of_elements & Hy).
      destruct (dict schema1 !! x) as [t1|] eqn:E1; [|by apply elem_of_nil in Hy].
      destruct (dict schema2 !! x) as [t2|] eqn:E2; [|by apply elem_of_nil in Hy].
      case_bool_decide; [|by apply elem_of_nil in Hy].
      apply list_elem_of_singleton in Hy as [= -> -> ->]. done.
    + intros (Hcol & E1 & E2 & Hne). exists col.
      split; [by apply elem_of_elements|].
      rewrite E1, E2, bool_decide_eq_true_2 by done. by apply list_elem_of_singleton.
  - intros col Hcol%common_columns_listed.
    by rewrite !dict_lookup_is_Some.
  - rewrite Hmis.
    apply (NoDup_flat_map_keyed (λ y : string * string * string, y.1.1));
      [apply NoDup_elements|..].
    + intros x y Hy.
      destruct (dict schema1 !! x) as [t1|]; [|by apply elem_of_nil in Hy].
      destruct (dict schema2 !! x) as [t2|]; [|by apply elem_of_nil in Hy].
      case_bool_decide; [|by apply elem_of_nil in Hy].
      by apply list_elem_of_singleton in Hy as ->.
    + intros x.
      destruct (dict schema1 !! x) as [t1|]; [|constructor].
      destruct (dict schema2 !! x) as [t2|]; [|constructor].
      case_bool_decide; [apply NoDup_singleton|constructor].
Qed.

Lemma schema_mismatches_exact_witness :
  let r := analyze_schemas [("a", "INT"); ("b", "STRING")]
             [("a", "INT"); ("b", "INT"); ("c", "BOOL")] None in
  ("b", "STRING", "INT") ∈ schema_mismatches r.
Proof.
  intros r.
  apply (proj1 (schema_mismatches_exact [("a", "INT"); ("b", "STRING")]
                  [("a", "INT"); ("b", "INT"); ("c", "BOOL")] None)).
  split; [|split; [|split]].
  - apply (bool_decide_unpack _). by vm_compute.
  - by vm_compute.
  - by vm_compute.
  - discriminate.
Defined.

(** X8.  Comparing the two schemas the other way round gives the same
    analysis, mirrored: the same common and missing columns, the two
    "only in" sets exchanged, the same mismatches with their two types
    exchanged (the same up to the order in which they are listed, which is
    that of the iteration over a set), and the same flag. *)
Theorem analyze_schemas_symmetric
    (schema1 schema2 : list (string * string)) (specific_columns : option string) :
  let r := analyze_schemas schema1 schema2 specific_columns in
  let r' := analyze_schemas schema2 schema1 specific_columns in
  common_columns r' = common_columns r
  ∧ missing_specified_cols r' = missing_specified_cols r
  ∧ only_in_table1 r' = only_in_table2 r
  ∧ only_in_table2 r' = only_in_table1 r
  ∧ schema_mismatches r' ≡ₚ map swap_types (schema_mismatches r)
  ∧ (∀ col type1 type2,
       (col, type2, type1) ∈ schema_mismatches r'
       ↔ (col, type1, type2) ∈ schema_mismatches r)
  ∧ schemas_identical r' = schemas_identical r.
Proof.
  intros r r'.
  pose proof (analyze_schemas_flag schema1 schema2 specific_columns) as Hf.
  pose proof (analyze_schemas_flag schema2 schema1 specific_columns) as Hf'.
  destruct (analyze_schemas_fields schema1 schema2 specific_columns)
    as (Hc & Hm & H1 & H2 & Hmis).
  destruct (analyze_schemas_fields schema2 schema1 specific_columns)
    as (Hc' & Hm' & H1' & H2' & Hmis').
  cbv zeta in Hf, Hf'. fold r in Hc, Hm, H1, H2, Hmis, Hf.
  fold r' in Hc', Hm', H1', H2', Hmis', Hf'.
  assert (common_columns r' = common_columns r) as Ecommon.
  { rewrite Hc, Hc'. destruct (truthy_str specific_columns);
      apply set_eq; intros x; rewrite !elem_of_intersection; tauto. }
  assert (schema_mismatches r' = map swap_types (schema_mismatches r)) as Emis.
  { rewrite Hmis, Hmis', Ecommon. clear.
    induction (elements (common_columns r)) as [|col l IH]; [done|].
    simpl. rewrite map_app, IH. f_equal.
    destruct (dict schema1 !! col) as [t1|], (dict schema2 !! col) as [t2|];
      try done.
    repeat case_bool_decide; try done; congruence. }
  split; [done|]. split; [by rewrite Hm, Hm', Ecommon|].
  split; [by rewrite H1', H2|]. split; [by rewrite H2', H1|].
  split; [by rewrite Emis|]. split.
  { intros col type1 type2. rewrite Emis, list_elem_of_fmap. split.
    - by intros ([[c t1] t2] & [= -> -> ->] & Hin).
    - intros Hin. by exists (col, type1, type2). }
  rewrite Hf, Hf', Emis. f_equal. f_equal.
  - apply bool_decide_ext. split; congruence.
  - apply bool_decide_ext. by destruct (schema_mismatches r).
Qed.

(** X9.  The flag [schemas_identical] does not look at the column names: with
    no subset requested, two schemas of the same length that have no column
    name in common have no common column, hence no mismatch, and the flag
    is [True]. *)
Theorem schemas_identical_ignores_names
    (schema1 schema2 : list (string * string)) :
  length schema1 = length schema2 →
  (∀ x, x ∈ schema1.*1 → x ∉ schema2.*1) →
  let r := analyze_schemas schema1 schema2 None in
  common_columns r = ∅
  ∧ schema_mismatches r = []
  ∧ schemas_identical r = true.
Proof.
  intros Hlen Hdisj r.
  pose proof (analyze_schemas_flag schema1 schema2 None) as Hf.
  destruct (analyze_schemas_fields schema1 schema2 None) as (Hc & _ & _ & _ & Hmis).
  cbv zeta in Hf. fold r in Hc, Hmis, Hf.
  assert (common_columns r = ∅) as E.
  { rewrite Hc. change (truthy_str None) with false. cbv iota.
    apply set_eq. intros x.
    rewrite elem_of_intersection, !elem_of_list_to_set.
    split; [intros [H1 H2]; by destruct (Hdisj x H1)|by intros ?%not_elem_of_empty]. }
  assert (schema_mismatches r = []) as Em by (by rewrite Hmis, E, elements_empty).
  split; [done|]. split; [done|].
  rewrite Hf, Em. simpl. by rewrite bool_decide_eq_true_2.
Qed.

Lemma schemas_identical_ignores_names_witness :
  schemas_identical (analyze_schemas [("a", "INT")] [("b", "STRING")] None) = true.
Proof.
  refine (proj2 (proj2 (schemas_identical_ignores_names
                          [("a", "INT")] [("b", "STRING")] eq_refl _))).
  intros x ->%list_elem_of_singleton [=]%list_elem_of_singleton.
Defined.

(** ** Every run of the comparison *)

Ltac run_all :=
  unfold execute_comparison, get_sample_differences, export_all_differences,
    data_rows;
  cbv zeta;
  eapply run_try_except;
  [ run_step;
    try (match goal with H : nonempty _ = _ |- _ => rewrite H end; run_step)
  | cbv beta iota; run_step ].

Section every_run.

Context (cl : client) (fs : sink).
Context (table1_full table2_full : string).
Context (table1_project table1_dataset table1_name : string).
Context (table2_project table2_dataset table2_name : string).
Context (where_clause order_by_clause specific_columns : option string).

Local Abbreviation the_run :=
  (execute_comparison cl fs table1_full table2_full
     table1_project table1_dataset table1_name
     table2_project table2_dataset table2_name
     where_clause order_by_clause specific_columns 0).
Local Abbreviation wc := (normalize_where_clause where_clause).
Local Abbreviation oc := (normalize_order_by_clause order_by_clause).

Ltac failure_position Hi i :=
  lazymatch type of Hi with
  | (_ :: _) !! _ = _ =>
      destruct i as [|i];
      [ simpl in Hi;
        first [ discriminate Hi
              | injection Hi as <-; split; [reflexivity|]; split; reflexivity ]
      | simpl in Hi; failure_position Hi i ]
  | _ => rewrite ?lookup_nil in Hi; discriminate Hi
  end.

Ltac run_facts :=
  split; [log_simpl; reflexivity|];
  split; [log_simpl; by eexists|];
  split;
    [first
       [ left; split; [reflexivity|log_simpl; reflexivity]
       | right; eexists; split; [reflexivity|];
         split; [log_simpl; reflexivity|rewrite !app_nil_r; apply last_snoc] ]|];
  split;
    [first
       [ left; split; [log_simpl; reflexivity|];
         split; [log_simpl; lia|log_simpl; reflexivity]
       | right; left; split; [log_simpl; reflexivity|];
         split; [reflexivity|]; split; log_simpl; reflexivity
       | right; right; split; [log_simpl; reflexivity|];
         split; [log_simpl; lia|];
         first
           [ left; log_simpl; reflexivity
           | right; eexists _, _, _, _; split; [eassumption|];
             split; [eassumption|]; split; [eassumption|];
             split; [eassumption|];
             split; [log_simpl; rewrite ?app_nil_r; reflexivity|];
             split; [reflexivity|];
             split; log_simpl; reflexivity ] ]|];
  intros i msg; log_simpl; intros Hi; failure_position Hi i.

Ltac run_leaf := eexists _, _, _; split; [run_all|run_facts].

(** What every run of [execute_comparison] has in common. *)
Lemma execute_comparison_run_facts :
  ∃ o l n, the_run = Run o l n
    ∧ n = length (queries l)
    ∧ map fst (queries l) `prefix_of` pipeline_ops
    ∧ (o = Val () ∧ errors l = []
       ∨ ∃ e, o = Exited 1 ∧ errors l = [e]
              ∧ last l = Some (Print (MComparisonError e)))
    ∧ (verdicts l = [] ∧ length (queries l) ≤ 5 ∧ writes l = []
       ∨ verdicts l = [MPass] ∧ o = Val () ∧ length (queries l) = 5
         ∧ writes l = []
       ∨ verdicts l = [MFail] ∧ 6 ≤ length (queries l)
         ∧ (writes l = []
            ∨ ∃ first rows ow ws,
                write_csv fs "table_row_differences.csv" first.*1 (first :: rows) 8
                = Run ow (sink_events ws) 8
                ∧ Forall (λ w, sink_file w.1 = "table_row_differences.csv") ws
                ∧ head ws = Some (SOpen "table_row_differences.csv",
                                  sink_io fs (SOpen "table_row_differences.csv"))
                ∧ match ow with
                  | Val _ =>
                      ws = written_file "table_row_differences.csv" first.*1
                             (first :: rows)
                      ∧ Forall (λ r : row, r.*1 ⊆ first.*1) (first :: rows)
                  | Raised _ =>
                      ¬ ((∀ op, sink_io fs op = None)
                         ∧ Forall (λ r : row, r.*1 ⊆ first.*1) (first :: rows))
                  | Exited _ => False
                  end
                ∧ writes l = ws
                ∧ o = match ow with Val _ => Val () | _ => Exited 1 end
                ∧ length (queries l) = 8
                ∧ last (responses l) = Some (Answer (DataRows (first :: rows)))))
    ∧ (∀ i msg, responses l !! i = Some (Failure msg) →
         S i = length (responses l) ∧ errors l = [msg] ∧ o = Exited 1).
Proof.
  destruct (cl 0 (schema_query table1_project table1_dataset table1_name))
    as [[schema1|c|f|rs]|e] eqn:H1; [|run_leaf..].
  destruct (cl 1 (schema_query table2_project table2_dataset table2_name))
    as [[schema2|c|f|rs]|e] eqn:H2; [|run_leaf..].
  destruct (nonempty (common_columns
              (analyze_schemas schema1 schema2 specific_columns))) eqn:Hc;
    [|run_leaf].
  destruct (cl 2 (build_row_count_query table1_full wc))
    as [[s|count1|f|rs]|e] eqn:H3; [run_leaf| |run_leaf..].
  destruct (cl 3 (build_row_count_query table2_full wc))
    as [[s|count2|f|rs]|e] eqn:H4; [run_leaf| |run_leaf..].
  destruct (cl 4 (check_query table1_full table2_full
                    (build_column_list specific_columns
                       (Some (common_columns
                                (analyze_schemas schema1 schema2 specific_columns))))
                    wc))
    as [[s|c|[|]|rs]|e] eqn:H5; [run_leaf|run_leaf| |run_leaf..].
  destruct (cl 5 (build_except_distinct_query table1_full table2_full
                    (build_column_list specific_columns
                       (Some (common_columns
                                (analyze_schemas schema1 schema2 specific_columns))))
                    wc oc (Some 10%Z) None))
    as [r1|e] eqn:H6; [|run_leaf].
  destruct (cl 6 (build_except_distinct_query table2_full table1_full
                    (build_column_list specific_columns
                       (Some (common_columns
                                (analyze_schemas schema1 schema2 specific_columns))))
                    wc oc (Some 10%Z) None))
    as [r2|e] eqn:H7; [|run_leaf].
  destruct r1 as [s|c|f|rows1]; [run_leaf..|].
  destruct r2 as [s|c|f|rows2]; [run_leaf..|].
  destruct (cl 7 (build_union_query
                    [build_except_distinct_query table1_full table2_full
                       (build_column_list specific_columns
                          (Some (common_columns
                                   (analyze_schemas schema1 schema2
                                      specific_columns))))
                       wc None None (Some ("exclusive_to_" +:+ table1_name));
                     build_except_distinct_query table2_full table1_full
                       (build_column_list specific_columns
                          (Some (common_columns
                                   (analyze_schemas schema1 schema2
                                      specific_columns))))
                       wc None None (Some ("exclusive_to_" +:+ table2_name))]
                    oc))
    as [[s|c|f|[|first rows]]|e] eqn:H8; [run_leaf..| |run_leaf].
  destruct (write_csv_spec fs "table_row_differences.csv" first.*1 (first :: rows) 8)
    as (ow & ws & Hw & Hfile & Hhead & Hspec).
  destruct ow as [[]|e|s]; [run_leaf|run_leaf|done].
Qed.


(** X10.  No exception leaves [execute_comparison]: a run returns, or exits
    with status 1.  A run that returns has reported no error; a run that
    exits has reported exactly one, as its last output. *)
Theorem execute_comparison_contains_errors :
  (out the_run = Val () ∨ out the_run = Exited 1)
  ∧ (exit_status the_run = 0%Z ∨ exit_status the_run = 1%Z)
  ∧ (out the_run = Val () → errors (log the_run) = [])
  ∧ (out the_run = Exited 1 →
       ∃ e, errors (log the_run) = [e]
            ∧ last (log the_run) = Some (Print (MComparisonError e))).
Proof.
  destruct execute_comparison_run_facts as (o & l & n & -> & _ & _ & Herr & _).
  unfold exit_status. cbn [out log].
  destruct Herr as [[-> He]|(e & -> & He & Hl)].
  - split; [by left|]. split; [by left|]. split; [done|]. by intros [=].
  - split; [by right|]. split; [by right|]. split; [by intros [=]|].
    intros _. by exists e.
Qed.

(** X11.  A run prints at most one verdict.  PASS is printed only by runs
    that return, after exactly five queries, and such runs write no file;
    FAIL is always followed by at least one more query; a run that prints no
    verdict has issued at most five queries and written no file. *)
Theorem execute_comparison_one_verdict :
  (verdicts (log the_run) = []
   ∨ verdicts (log the_run) = [MPass]
   ∨ verdicts (log the_run) = [MFail])
  ∧ (verdicts (log the_run) = [MPass] →
       out the_run = Val () ∧ length (queries (log the_run)) = 5
       ∧ writes (log the_run) = [])
  ∧ (verdicts (log the_run) = [MFail] → 6 ≤ length (queries (log the_run)))
  ∧ (verdicts (log the_run) = [] →
       length (queries (log the_run)) ≤ 5 ∧ writes (log the_run) = []).
Proof.
  destruct execute_comparison_run_facts as (o & l & n & -> & _ & _ & _ & Hv & _).
  cbn [out log].
  destruct Hv as [(-> & Hq & Hw)|[(-> & -> & Hq & Hw)|(-> & Hq & _)]].
  - split; [by left|]. split; [by intros [=]|]. split; [by intros [=]|done].
  - split; [by right; left|]. split; [done|]. split; by intros [=].
  - split; [by right; right|]. split; [by intros [=]|]. split; [done|by intros [=]].
Qed.

(** X12.  The queries of a run follow the pipeline: whatever the
    collaborator answers, the methods that issue them are an initial part of
    schema, schema, row count, row count, existence check, sample, sample,
    export; so a run issues at most eight queries, none of them twice, and
    the count the run keeps is their number. *)
Theorem execute_comparison_query_order :
  map fst (queries (log the_run)) `prefix_of` pipeline_ops
  ∧ length (queries (log the_run)) ≤ 8
  ∧ issued the_run = length (queries (log the_run))
  ∧ length (responses (log the_run)) = length (queries (log the_run)).
Proof.
  destruct execute_comparison_run_facts as (o & l & n & -> & -> & Hp & _).
  cbn [log issued]. split; [done|]. split; [|split; [done|apply responses_length]].
  apply prefix_length in Hp. rewrite length_map in Hp. exact Hp.
Qed.

(** X13.  A query the collaborator fails is the last query of the run:
    nothing is retried and nothing further is asked; the run reports the
    collaborator's message and exits with status 1. *)
Theorem execute_comparison_stops_at_failure (i : nat) (msg : string) :
  responses (log the_run) !! i = Some (Failure msg) →
  S i = length (queries (log the_run))
  ∧ errors (log the_run) = [msg]
  ∧ last (log the_run) = Some (Print (MComparisonError msg))
  ∧ out the_run = Exited 1.
Proof.
  destruct execute_comparison_run_facts
    as (o & l & n & -> & _ & _ & Herr & _ & Hpos).
  cbn [out log]. intros Hi. destruct (Hpos i msg Hi) as (Hlen & He & ->).
  rewrite <- responses_length. split; [done|]. split; [done|]. split; [|done].
  destruct Herr as [[[=] _]|(e & _ & He' & Hl)].
  rewrite He in He'. by injection He' as ->.
Qed.

(** X14.  A run touches the sink only after it has printed FAIL, issued
    all eight queries and got at least one row from the export query, and
    then only the file [table_row_differences.csv]: what it does there is
    what [write_csv] does with the rows of that last answer under the keys
    of the first row, beginning with opening the file.  The run returns
    exactly when the file is written to the end: it then holds every row of
    the answer; it does so whenever the sink fails no operation and no row
    has a key that the first row lacks.  Otherwise the run exits with
    status 1, and the file may be left with a part of the rows.  In
    particular an export that yields no row leaves the file of an earlier
    run as it is. *)
Theorem execute_comparison_csv_only_after_fail :
  writes (log the_run) = []
  ∨ ∃ first rows,
      let file := "table_row_differences.csv" in
      let export := write_csv fs file first.*1 (first :: rows) 8 in
      verdicts (log the_run) = [MFail]
      ∧ length (queries (log the_run)) = 8
      ∧ last (responses (log the_run)) = Some (Answer (DataRows (first :: rows)))
      ∧ writes (log the_run) = writes (log export)
      ∧ (∀ o failure, (o, failure) ∈ writes (log the_run) → sink_file o = file)
      ∧ head (writes (log the_run)) = Some (SOpen file, sink_io fs (SOpen file))
      ∧ (out the_run = Val () ↔ out export = Val ())
      ∧ (out the_run = Val () ∨ out the_run = Exited 1)
      ∧ (out the_run = Val () →
           writes (log the_run) = written_file file first.*1 (first :: rows))
      ∧ ((∀ op, sink_io fs op = None) →
         Forall (λ r : row, r.*1 ⊆ first.*1) rows →
         out the_run = Val ()).
Proof.
  destruct execute_comparison_run_facts as (o & l & n & -> & _ & _ & _ & Hv & _).
  cbn [out log].
  destruct Hv as [(_ & _ & Hw)|[(_ & _ & _ & Hw)|(Hv & _ & [Hw|Hw])]];
    [by left..|].
  destruct Hw as (first & rows & ow & ws & Hrun & Hfile & Hhead & Hspec
                  & Hws & Ho & Hq & Hl).
  right. exists first, rows. cbv zeta. rewrite Hrun. cbn [out log].
  rewrite writes_sink_events, Hws, Ho.
  split; [done|]. split; [done|]. split; [done|]. split; [done|].
  split.
  { intros o' failure Hin. rewrite Forall_forall in Hfile. exact (Hfile _ Hin). }
  split; [done|].
  destruct ow as [[]|e|s]; [| |done].
  - destruct Hspec as [-> Hrows]. split; [done|]. split; [by left|]. by split.
  - split; [by split|]. split; [by right|]. split; [done|].
    intros Hio Hrows. destruct Hspec. split; [done|]. by constructor.
Qed.

End every_run.

Lemma execute_comparison_stops_at_failure_witness :
  let r := execute_comparison failing_client accepting_sink "p.d.t1" "p.d.t2"
             "p" "d" "t1" "p" "d" "t2" None None None 0 in
  S 2 = length (queries (log r)) ∧ out r = Exited 1.
Proof.
  intros r.
  destruct (execute_comparison_stops_at_failure failing_client accepting_sink
              "p.d.t1" "p.d.t2"
              "p" "d" "t1" "p" "d" "t2" None None None 2
              "quota exceeded") as (Hn & _ & _ & Ho).
  - by vm_compute.
  - split; [exact Hn|exact Ho].
Defined.

(** ** The operations of the comparator and the entry point *)

(** X15.  [get_sample_differences] issues the query for the rows of the
    first table, then the one for the rows of the second, both with the
    given cap, and reads the answers only afterwards: when the first query
    fails the second is not issued; when the first is answered the second is
    issued whatever the first answer holds; and the rows of both come back
    when both answers are rows. *)
Theorem get_sample_differences_order (cl : client)
    (table1 table2 columns : string) (where_clause order_by_clause : option string)
    (limit : Z) (n : nat) :
  let query1 := build_except_distinct_query table1 table2 columns
                  where_clause order_by_clause (Some limit) None in
  let query2 := build_except_distinct_query table2 table1 columns
                  where_clause order_by_clause (Some limit) None in
  let r := get_sample_differences cl table1 table2 columns
             where_clause order_by_clause limit n in
  (∀ msg, cl n query1 = Failure msg →
     r = Run (Raised msg) [Query OpSample query1 (Failure msg)] (S n))
  ∧ (∀ r1, cl n query1 = Answer r1 →
       queries (log r) = [(OpSample, query1); (OpSample, query2)]
       ∧ issued r = S (S n))
  ∧ (∀ rows1 rows2,
       cl n query1 = Answer (DataRows rows1) →
       cl (S n) query2 = Answer (DataRows rows2) →
       r = Run (Val (rows1, rows2))
             [Query OpSample query1 (Answer (DataRows rows1));
              Query OpSample query2 (Answer (DataRows rows2))] (S (S n)))
  ∧ (∀ rows, out r = Val rows →
       cl n query1 = Answer (DataRows rows.1)
       ∧ cl (S n) query2 = Answer (DataRows rows.2)).
Proof.
  intros query1 query2 r.
  assert (∀ o l n', get_sample_differences cl table1 table2 columns
                      where_clause order_by_clause limit n = Run o l n' →
                    r = Run o l n') as Hr by done.
  split; [|split; [|split]].
  - intros msg H1. apply Hr.
    unfold get_sample_differences; cbv zeta. etrans; [run_step|reflexivity].
  - intros r1 H1.
    destruct (cl (S n) query2) as [r2|e2] eqn:H2; [destruct r1, r2|];
      (erewrite Hr;
       [|unfold get_sample_differences, data_rows; cbv zeta; run_step]);
      by cbn.
  - intros rows1 rows2 H1 H2. apply Hr.
    unfold get_sample_differences, data_rows; cbv zeta.
    etrans; [run_step|reflexivity].
  - intros rows.
    destruct (cl n query1) as [r1|e1] eqn:H1;
      [destruct (cl (S n) query2) as [r2|e2] eqn:H2; [destruct r1, r2|]|];
      (erewrite Hr;
       [|unfold get_sample_differences, data_rows; cbv zeta; run_step]);
      cbn; try done.
    by intros [= <-].
Qed.

Lemma get_sample_differences_order_witness :
  issued (get_sample_differences (demo_client true) "t1" "t2" "a" None None 10 5)
  = 7.
Proof.
  exact (proj2 (proj1 (proj2 (get_sample_differences_order (demo_client true)
                  "t1" "t2" "a" None None 10 5)) _ eq_refl)).
Defined.

(** X16.  [export_all_differences] issues the one labeled-union query.
    When the answer has rows, the sink fails no operation and no row has a
    key that the first row lacks, the output file is opened, gets the keys
    of the first row as header and every row in turn, and is closed, and
    the number of rows is returned.  When the answer has no row, the sink is
    not touched and 0 is returned; when the query fails, the failure is
    raised and the sink is not touched.  When the file cannot be opened,
    the error of [open] is raised and nothing else is done.  When a row has
    a key that the first row lacks, the rows before it are written, the file
    is closed and the [ValueError] is raised.  An export that returns has
    written every row of the answer; and the sink is touched only for an
    answer with rows, only on the output file, first to open it. *)
Theorem export_all_differences_writes (cl : client) (fs : sink)
    (table1 table2 table1_name table2_name columns output_file : string)
    (where_clause order_by_clause : option string) (n : nat) :
  let q := (export_query table1 table2 table1_name table2_name columns
              where_clause order_by_clause).2 in
  let r := export_all_differences cl fs table1 table2 table1_name table2_name
             columns output_file where_clause order_by_clause n in
  (∀ first rows, cl n q = Answer (DataRows (first :: rows)) →
     (∀ op, sink_io fs op = None) →
     Forall (λ r : row, r.*1 ⊆ first.*1) rows →
     r = Run (Val (S (length rows)))
           (Query OpExport q (Answer (DataRows (first :: rows)))
            :: sink_events (written_file output_file first.*1 (first :: rows)))
           (S n))
  ∧ (cl n q = Answer (DataRows []) →
     r = Run (Val 0) [Query OpExport q (Answer (DataRows []))] (S n))
  ∧ (∀ msg, cl n q = Failure msg →
     r = Run (Raised msg) [Query OpExport q (Failure msg)] (S n))
  ∧ (∀ first rows msg, cl n q = Answer (DataRows (first :: rows)) →
     sink_io fs (SOpen output_file) = Some msg →
     r = Run (Raised msg)
           [Query OpExport q (Answer (DataRows (first :: rows)));
            Write (SOpen output_file) (Some msg)] (S n))
  ∧ (∀ first good bad rest,
     cl n q = Answer (DataRows (first :: good ++ bad :: rest)) →
     (∀ op, sink_io fs op = None) →
     Forall (λ r : row, r.*1 ⊆ first.*1) good →
     ¬ bad.*1 ⊆ first.*1 →
     r = Run (Raised (value_error fs (unknown_keys first.*1 bad)))
           (Query OpExport q (Answer (DataRows (first :: good ++ bad :: rest)))
            :: sink_events
                 ((SOpen output_file, None) :: (SHeader output_file first.*1, None)
                  :: row_writes output_file 0 (first :: good)
                  ++ [(SClose output_file, None)]))
           (S n))
  ∧ queries (log r) = [(OpExport, q)]
  ∧ (∀ k, out r = Val k →
     ∃ rows, cl n q = Answer (DataRows rows) ∧ k = length rows
       ∧ writes (log r) = match rows with
                          | [] => []
                          | first :: _ => written_file output_file first.*1 rows
                          end)
  ∧ (writes (log r) ≠ [] →
     (∃ first rows, cl n q = Answer (DataRows (first :: rows)))
     ∧ head (writes (log r))
       = Some (SOpen output_file, sink_io fs (SOpen output_file))
     ∧ ∀ o failure, (o, failure) ∈ writes (log r) → sink_file o = output_file).
Proof.
  intros q r.
  assert (∀ o l n', export_all_differences cl fs table1 table2 table1_name
                      table2_name columns output_file where_clause
                      order_by_clause n = Run o l n' →
                    r = Run o l n') as Hr by done.
  assert (q = build_union_query
     [build_except_distinct_query table1 table2 columns where_clause None None
        (Some ("exclusive_to_" +:+ table1_name));
      build_except_distinct_query table2 table1 columns where_clause None None
        (Some ("exclusive_to_" +:+ table2_name))] order_by_clause) as Hq by done.
  clearbody q r. subst q.
  split; [|split; [|split; [|split; [|split]]]].
  - intros first rows H Hio Hrows.
    assert (Forall (λ r : row, r.*1 ⊆ first.*1) (first :: rows)) as Hall
      by (by constructor).
    pose proof (write_csv_ok fs output_file first.*1 (first :: rows) (S n) Hio
                  Hall) as Hw.
    apply Hr. unfold export_all_differences, data_rows; cbv zeta.
    etrans; [run_step|]. by rewrite app_nil_r.
  - intros H. apply Hr.
    unfold export_all_differences, data_rows; cbv zeta.
    etrans; [run_step|reflexivity].
  - intros msg H. apply Hr.
    unfold export_all_differences, data_rows; cbv zeta.
    etrans; [run_step|reflexivity].
  - intros first rows msg H Hopen.
    pose proof (write_csv_open_fails fs output_file first.*1 (first :: rows) (S n)
                  msg Hopen) as Hw.
    apply Hr. unfold export_all_differences, data_rows; cbv zeta.
    etrans; [run_step|reflexivity].
  - intros first good bad rest H Hio Hgood Hbad.
    assert (Forall (λ r : row, r.*1 ⊆ first.*1) (first :: good)) as Hall
      by (by constructor).
    pose proof (write_csv_stops fs output_file first.*1 (first :: good) bad rest
                  (S n) Hio Hall Hbad) as Hw.
    apply Hr. unfold export_all_differences, data_rows; cbv zeta.
    etrans; [run_step|]. by rewrite app_nil_r.
  - assert (∃ o l, r = Run o l (S n)
              ∧ queries l
                = [(OpExport,
                    build_union_query
                      [build_except_distinct_query table1 table2 columns
                         where_clause None None
                         (Some ("exclusive_to_" +:+ table1_name));
                       build_except_distinct_query table2 table1 columns
                         where_clause None None
                         (Some ("exclusive_to_" +:+ table2_name))]
                      order_by_clause)]
              ∧ match o with
                | Val k =>
                    ∃ rows,
                      cl n (build_union_query
                        [build_except_distinct_query table1 table2 columns
                           where_clause None None
                           (Some ("exclusive_to_" +:+ table1_name));
                         build_except_distinct_query table2 table1 columns
                           where_clause None None
                           (Some ("exclusive_to_" +:+ table2_name))]
                        order_by_clause) = Answer (DataRows rows)
                      ∧ k = length rows
                      ∧ writes l = match rows with
                                   | [] => []
                                   | first :: _ =>
                                       written_file output_file first.*1 rows
                                   end
                | _ => True
                end
              ∧ (writes l ≠ [] →
                 (∃ first rows,
                    cl n (build_union_query
                      [build_except_distinct_query table1 table2 columns
                         where_clause None None
                         (Some ("exclusive_to_" +:+ table1_name));
                       build_except_distinct_query table2 table1 columns
                         where_clause None None
                         (Some ("exclusive_to_" +:+ table2_name))]
                      order_by_clause) = Answer (DataRows (first :: rows)))
                 ∧ head (writes l)
                   = Some (SOpen output_file, sink_io fs (SOpen output_file))
                 ∧ ∀ o failure, (o, failure) ∈ writes l →
                                sink_file o = output_file))
      as (o & l & -> & Hql & Hval & Hwr).
    { destruct (cl n (build_union_query
        [build_except_distinct_query table1 table2 columns where_clause None None
           (Some ("exclusive_to_" +:+ table1_name));
         build_except_distinct_query table2 table1 columns where_clause None None
           (Some ("exclusive_to_" +:+ table2_name))] order_by_clause))
        as [[| | |[|first rows]]|e] eqn:H;
        [| | | |destruct (write_csv_spec fs output_file first.*1 (first :: rows) (S n))
                  as (ow & ws & Hw & Hfile & Hhead & Hspec);
                destruct ow as [[]|e|s]; [| |done]|];
        eexists _, _;
        (split; [apply Hr; unfold export_all_differences, data_rows; cbv zeta;
                 run_step|]);
        (split; [by log_simpl|]); cbn beta iota;
        (split; [|log_simpl; rewrite ?app_nil_r;
                  first
                    [ by intros []
                    | intros _; split; [by eauto|]; split; [done|];
                      intros o' failure Hin; rewrite Forall_forall in Hfile;
                      exact (Hfile _ Hin) ]]);
        try done.
      - by exists [].
      - exists (first :: rows). split; [done|]. split; [done|]. log_simpl.
        rewrite app_nil_r. by destruct Hspec as [-> _]. }
    cbn [out log]. split; [done|]. split; [|done].
    intros k [= ->]. exact Hval.
Qed.

Lemma export_all_differences_writes_witness :
  writes (log (export_all_differences (demo_client true) accepting_sink
                 "t1" "t2" "t1" "t2" "a, b" "out.csv" None None 7))
  = [(SOpen "out.csv", None);
     (SHeader "out.csv" ["a"; "b"; "source_table"], None);
     (SRow "out.csv" 0
        [("a", "1"); ("b", "x"); ("source_table", "exclusive_to_t1")], None);
     (SClose "out.csv", None)].
Proof.
  rewrite (proj1 (export_all_differences_writes (demo_client true) accepting_sink
                    "t1" "t2" "t1" "t2" "a, b" "out.csv" None None 7)
             [("a", "1"); ("b", "x"); ("source_table", "exclusive_to_t1")] []
             eq_refl (λ _, eq_refl) (Forall_nil_2 _)).
  reflexivity.
Defined.

(** X17.  [main], from the parsed command line on.  When both paths parse,
    it prints its header and builds the client for the project of the first
    path.  When the client is built, it runs the comparison on the two paths
    and their segments, with the clauses and columns as they were given: the
    queries, verdicts, errors and sink operations of the process are those
    of [execute_comparison], and so is the way it ends.  When building the
    client raises, the exception leaves [main] (the process ends with status
    1) after the header, with no query issued, no verdict and no error line
    printed, and the sink untouched.  This is the only exception that can
    leave [main]; and no run issues more than eight queries. *)
Theorem main_runs_comparison (connect : connector) (fs : sink) (a : args) :
  (∀ project1 dataset1 name1 project2 dataset2 name2,
     parse_table_path (arg_table1 a) = inr (project1, dataset1, name1) →
     parse_table_path (arg_table2 a) = inr (project2, dataset2, name2) →
     let r := main connect fs a 0 in
     (∀ cl, connect project1 = inr cl →
        let r' := execute_comparison cl fs (arg_table1 a) (arg_table2 a)
                    project1 dataset1 name1 project2 dataset2 name2
                    (arg_where_clause a) (arg_order_by_clause a)
                    (arg_specific_columns a) 0 in
        out r = out r' ∧ issued r = issued r'
        ∧ queries (log r) = queries (log r')
        ∧ responses (log r) = responses (log r')
        ∧ verdicts (log r) = verdicts (log r')
        ∧ errors (log r) = errors (log r')
        ∧ writes (log r) = writes (log r')
        ∧ ∃ header, log r = Print (MComparing (arg_table1 a) (arg_table2 a))
                            :: header ++ log r')
     ∧ (∀ e, connect project1 = inl e →
          out r = Raised e ∧ exit_status r = 1%Z
          ∧ queries (log r) = [] ∧ verdicts (log r) = []
          ∧ errors (log r) = [] ∧ writes (log r) = []
          ∧ head (log r) = Some (Print (MComparing (arg_table1 a) (arg_table2 a)))))
  ∧ (∀ e, out (main connect fs a 0) = Raised e →
       ∃ project dataset name,
         parse_table_path (arg_table1 a) = inr (project, dataset, name)
         ∧ connect project = inl e)
  ∧ length (queries (log (main connect fs a 0))) ≤ 8.
Proof.
  assert (∀ p1 d1 n1 p2 d2 n2,
    parse_table_path (arg_table1 a) = inr (p1, d1, n1) →
    parse_table_path (arg_table2 a) = inr (p2, d2, n2) →
    ∃ header,
      (queries header = [] ∧ responses header = [] ∧ verdicts header = []
       ∧ errors header = [] ∧ writes header = [])
      ∧ (∀ cl, connect p1 = inr cl →
           main connect fs a 0 =
           (let r' := execute_comparison cl fs (arg_table1 a) (arg_table2 a)
                        p1 d1 n1 p2 d2 n2
                        (arg_where_clause a) (arg_order_by_clause a)
                        (arg_specific_columns a) 0 in
            Run (out r')
              (Print (MComparing (arg_table1 a) (arg_table2 a))
                 :: header ++ log r') (issued r')))
      ∧ (∀ e, connect p1 = inl e →
           main connect fs a 0 =
           Run (Raised e)
             (Print (MComparing (arg_table1 a) (arg_table2 a)) :: header) 0))
    as Hmain.
  { intros p1 d1 n1 p2 d2 n2 H1 H2. unfold main. rewrite H1, H2.
    exists ((if truthy_str (arg_where_clause a)
             then [Print (MFilter (text_of (arg_where_clause a)))] else [])
            ++ (if truthy_str (arg_order_by_clause a)
                then [Print (MOrder (text_of (arg_order_by_clause a)))] else [])
            ++ (if truthy_str (arg_specific_columns a)
                then [Print (MColumns (text_of (arg_specific_columns a)))]
                else [])).
    split; [repeat split; by log_simpl|]. split.
    - intros cl Hcl. rewrite Hcl. cbv zeta.
      destruct (execute_comparison cl fs (arg_table1 a) (arg_table2 a) p1 d1 n1
                  p2 d2 n2 (arg_where_clause a) (arg_order_by_clause a)
                  (arg_specific_columns a) 0) as [o l n] eqn:E.
      cbn [out log issued].
      etrans; [run_step|]. cbn [app]. by rewrite <- !app_assoc.
    - intros e He. rewrite He.
      etrans; [run_step|]. cbn [app]. rewrite <- ?app_assoc, ?app_nil_r.
      reflexivity. }
  split; [|].
  - intros p1 d1 n1 p2 d2 n2 H1 H2 r.
    destruct (Hmain p1 d1 n1 p2 d2 n2 H1 H2)
      as (header & (Hq & Hr & Hv & He & Hw) & Hcl & Hfail).
    split.
    + intros cl Hc r'. subst r. rewrite (Hcl cl Hc). cbv zeta. fold r'.
      cbn [out log issued].
      change (Print (MComparing (arg_table1 a) (arg_table2 a)) :: header ++ log r')
        with ([Print (MComparing (arg_table1 a) (arg_table2 a))] ++ header ++ log r').
      rewrite !queries_app, !responses_app, !verdicts_app, !errors_app, !writes_app.
      rewrite Hq, Hr, Hv, He, Hw. cbn. repeat split; try done. by exists header.
    + intros e Hc. subst r. rewrite (Hfail e Hc). unfold exit_status.
      cbn [out log issued head].
      change (Print (MComparing (arg_table1 a) (arg_table2 a)) :: header)
        with ([Print (MComparing (arg_table1 a) (arg_table2 a))] ++ header).
      rewrite !queries_app, !verdicts_app, !errors_app, !writes_app.
      rewrite Hq, Hv, He, Hw. by cbn.
  - destruct (parse_table_path (arg_table1 a)) as [e1|[[p1 d1] n1]] eqn:H1.
    { unfold main. rewrite H1. split; [done|change (0 ≤ 8); lia]. }
    destruct (parse_table_path (arg_table2 a)) as [e2|[[p2 d2] n2]] eqn:H2.
    { unfold main. rewrite H1, H2. split; [done|change (0 ≤ 8); lia]. }
    destruct (Hmain p1 d1 n1 p2 d2 n2 eq_refl eq_refl)
      as (header & (Hq & _) & Hcl & Hfail).
    change (Print (MComparing (arg_table1 a) (arg_table2 a)) :: header)
      with ([Print (MComparing (arg_table1 a) (arg_table2 a))] ++ header) in Hfail.
    destruct (connect p1) as [e'|cl] eqn:Hc.
    { rewrite (Hfail e' eq_refl). cbn [out log]. split.
      - intros e [= ->]. by exists p1, d1, n1.
      - rewrite !queries_app, Hq. cbn. lia. }
    rewrite (Hcl cl eq_refl). cbv zeta.
    destruct (execute_comparison_run_facts cl fs (arg_table1 a) (arg_table2 a)
                p1 d1 n1 p2 d2 n2 (arg_where_clause a) (arg_order_by_clause a)
                (arg_specific_columns a))
      as (o & l & n & -> & _ & Hp & Herr & _).
    cbn [out log issued].
    change (Print (MComparing (arg_table1 a) (arg_table2 a)) :: header ++ l)
      with ([Print (MComparing (arg_table1 a) (arg_table2 a))] ++ header ++ l).
    rewrite !queries_app, Hq. cbn [queries flat_map app].
    apply prefix_length in Hp. rewrite length_map in Hp.
    split; [|exact Hp].
    intros e. by destruct Herr as [[-> _]|(e' & -> & _)].
Qed.

Lemma main_runs_comparison_witness :
  verdicts (log (main (λ _, inr (demo_client false)) accepting_sink
                   (Args "p.d.t1" "p.d.t2" None None None) 0))
  = verdicts (log (execute_comparison (demo_client false) accepting_sink
                     "p.d.t1" "p.d.t2"
                     "p" "d" "t1" "p" "d" "t2" None None None 0)).
Proof.
  pose proof (proj1 (proj1 (main_runs_comparison (λ _, inr (demo_client false))
                              accepting_sink
                              (Args "p.d.t1" "p.d.t2" None None None))
                       "p" "d" "t1" "p" "d" "t2" eq_refl eq_refl)
                (demo_client false) eq_refl) as H.
  cbv zeta in H. exact (proj1 (proj2 (proj2 (proj2 (proj2 H))))).
Defined.

(** ** The filter in the queries *)

Lemma normalize_where_clause_truthy (F : option string) (r : string) :
  normalize_where_clause F = Some r → truthy_str (Some r) = true.
Proof.
  unfold normalize_where_clause. destruct (truthy_str F); [|done].
  destruct (startswith (lower (strip (text_of F))) "where") eqn:Hp; simpl negb;
    cbv iota; intros [= <-]; [|done].
  apply truthy_str_Some. intros E. by rewrite E in Hp.
Qed.

(** X18.  How the filter of the command line reaches the queries.  When
    normalisation yields no clause (no filter, or an empty one), the count
    query and both branches of the set-difference query end with the table
    name; when it yields a clause, each of them has that clause after the
    table name, separated by one space, and nothing else changes. *)
Theorem queries_carry_normalized_filter (F : option string) :
  (normalize_where_clause F = None →
     (∀ table, build_row_count_query table (normalize_where_clause F)
               = "SELECT COUNT(" +:+ "*) as count FROM " +:+ table)
     ∧ (∀ table1 table2 columns,
          except_query table1 table2 columns (normalize_where_clause F)
          = nl +:+ "SELECT " +:+ columns +:+ " FROM " +:+ table1 +:+ nl +:+
            "EXCEPT DISTINCT" +:+ nl +:+
            "SELECT " +:+ columns +:+ " FROM " +:+ table2))
  ∧ (∀ clause, normalize_where_clause F = Some clause →
     (∀ table, build_row_count_query table (normalize_where_clause F)
               = "SELECT COUNT(" +:+ "*) as count FROM " +:+ table
                 +:+ " " +:+ clause)
     ∧ (∀ table1 table2 columns,
          except_query table1 table2 columns (normalize_where_clause F)
          = nl +:+ "SELECT " +:+ columns +:+ " FROM " +:+ table1
            +:+ " " +:+ clause +:+ nl +:+
            "EXCEPT DISTINCT" +:+ nl +:+
            "SELECT " +:+ columns +:+ " FROM " +:+ table2 +:+ " " +:+ clause)).
Proof.
  split.
  - intros ->. split; [done|]. intros table1 table2 columns.
    unfold except_query, where_part. simpl truthy_str. cbv iota zeta.
    by rewrite !append_nil_r.
  - intros clause E. rewrite E.
    pose proof (normalize_where_clause_truthy F clause E) as Ht.
    split.
    + intros table. unfold build_row_count_query. cbv zeta. rewrite Ht.
      simpl text_of. by rewrite !append_assoc.
    + intros table1 table2 columns. unfold except_query, where_part.
      rewrite Ht. by simpl text_of.
Qed.

Lemma queries_carry_normalized_filter_witness :
  build_row_count_query "p.d.t" (normalize_where_clause (Some " x > 1 "))
  = "SELECT COUNT(" +:+ "*) as count FROM " +:+ "p.d.t" +:+ " " +:+ "where x > 1".
Proof.
  exact (proj1 (proj2 (queries_carry_normalized_filter (Some " x > 1 "))
                  "where x > 1" eq_refl) "p.d.t").
Defined.

Lemma execute_comparison_contains_errors_witness :
  errors (log (execute_comparison (demo_client false) accepting_sink
                 "p.d.t1" "p.d.t2"
                 "p" "d" "t1" "p" "d" "t2" None None None 0)) = [].
Proof.
  apply (proj1 (proj2 (proj2 (execute_comparison_contains_errors
           (demo_client false) accepting_sink
           "p.d.t1" "p.d.t2" "p" "d" "t1" "p" "d" "t2"
           None None None)))).
  by vm_compute.
Defined.

Lemma execute_comparison_one_verdict_witness :
  length (queries (log (execute_comparison (demo_client false) accepting_sink
                          "p.d.t1" "p.d.t2"
                          "p" "d" "t1" "p" "d" "t2" None None None 0))) = 5.
Proof.
  apply (proj1 (proj2 (execute_comparison_one_verdict
           (demo_client false) accepting_sink
           "p.d.t1" "p.d.t2" "p" "d" "t1" "p" "d" "t2"
           None None None))).
  by vm_compute.
Defined.
